(** * Importance-guided LSB steganography: a shallow embedding

    The development follows the Python sources
    [utils.py], [ai_encoder.py], [ai_decoder.py], [lsb_encoder.py] and
    [lsb_decoder.py].  Images are RGB pixel buffers addressed as
    [pixels[x, y]]: an image file stands for a file Pillow opens in mode
    RGB, the mode in which [pixels[x, y]] is the 3-tuple the uniform codec
    unpacks.  Bit strings (Python strings over '0'/'1') are lists of
    booleans; Python integers are [Z]; NumPy [uint8] scores are [Z] reduced
    modulo 256, with the wrap-around of unsigned negation written out. *)

From Stdlib Require Import String.
From Stdlib Require Import ZArith List Bool Lia Arith PeanoNat.
From Stdlib Require Import Permutation Sorted ZifyNat.
Import ListNotations.

Local Open Scope Z_scope.

(** ** Results and errors *)

(** The exceptions the modelled functions raise.  [MessageTooLarge n] is
    [ValueError("Message too large for image. Maximum size: n characters")],
    [NotEnoughPixels need found] is
    [ValueError("Not enough suitable pixels for encoding. Need .., found ..")].
    [NameError name] is raised by reading a global name the module does
    not bind,
    [UnboundLocalError name] by reading a local variable before any
    assignment to it has run. *)
Inductive error : Type :=
| FileNotFoundError
| UnsupportedFormat
| ImageLoadError
| UnicodeEncodeError
| MessageTooLarge (max_chars : Z)
| NotEnoughPixels (need found : nat)
| NameError (name : String.string)
| UnboundLocalError (name : String.string).

Inductive result (A : Type) : Type :=
| Ok (a : A)
| Err (e : error).
Arguments Ok {A} a.
Arguments Err {A} e.

Definition bind {A B} (r : result A) (k : A -> result B) : result B :=
  match r with
  | Ok a => k a
  | Err e => Err e
  end.

Notation "x <- r ;; k" := (bind r (fun x => k))
  (at level 61, r at next level, right associativity).

(** ** Pixels and images *)

(** A pixel is the tuple [(r, g, b)]. *)
Definition pixel : Type := (Z * Z * Z)%type.

Definition red (p : pixel) : Z := fst (fst p).
Definition green (p : pixel) : Z := snd (fst p).
Definition blue (p : pixel) : Z := snd p.

(** The pixel access object of an image: [px img x y] is [pixels[x, y]]. *)
Record image : Type := mkImage {
  width : nat;
  height : nat;
  px : nat -> nat -> pixel
}.

(** [pixels[x, y] = p]. *)
Definition set_px (img : image) (x y : nat) (p : pixel) : image :=
  {| width := width img;
     height := height img;
     px := fun x' y' =>
             if (x' =? x)%nat && (y' =? y)%nat then p else px img x' y' |}.

(** [(v & ~1) | int(bit)]. *)
Definition set_lsb (v : Z) (bit : bool) : Z :=
  Z.lor (Z.land v (Z.lnot 1)) (Z.b2z bit).

(** [v & 1], as a bit. *)
Definition lsb (v : Z) : bool := Z.testbit v 0.

(** [for y in range(height): for x in range(width)]: the coordinates
    [(x, y)] in row-major order. *)
Definition raster (w h : nat) : list (nat * nat) :=
  flat_map (fun y => map (fun x => (x, y)) (seq 0 w)) (seq 0 h).

(** The rows of an image, for displaying results. *)
Definition rows (img : image) : list (list pixel) :=
  map (fun y => map (fun x => px img x y) (seq 0 (width img)))
      (seq 0 (height img)).

(** ** What the file system holds at an image path *)

(** A path either does not exist, or names a file whose extension is or is
    not one of .png/.jpg/.jpeg/.bmp and whose content decodes to an RGB
    image or does not decode.  [Some img] is a file Pillow opens in mode
    RGB.  A decodable file of another mode (L, P, LA, RGBA, ...) is not
    represented: [encode_ai] converts it to RGB first, while the uniform
    encoders and decoders raise on it at their first
    [r, g, b = pixels[x, y]]. *)
Inductive file : Type :=
| Missing
| Present (supported_ext : bool) (content : option image).

Definition Readable (img : image) : file := Present true (Some img).

(** [utils.validate_image_path] *)
Definition validate_image_path (f : file) : result unit :=
  match f with
  | Missing => Err FileNotFoundError
  | Present false _ => Err UnsupportedFormat
  | Present true _ => Ok tt
  end.

(** [Image.open(image_path)], and [cv2.imread] followed by its [None]
    test. *)
Definition open_image (f : file) : result image :=
  match f with
  | Missing => Err FileNotFoundError
  | Present _ None => Err ImageLoadError
  | Present _ (Some img) => Ok img
  end.

(** [utils.calculate_max_message_size]: [(width * height - 8) // 8]. *)
Definition calculate_max_message_size (f : file) : result Z :=
  img <- open_image f ;;
  Ok ((Z.of_nat (width img * height img) - 8) / 8).

(** ** Bits and bytes *)

(** [k] bits of [n], most significant first. *)
Definition to_bits (k : nat) (n : Z) : list bool :=
  map (fun i => Z.testbit n (Z.of_nat i)) (rev (seq 0 k)).

(** [format(n, '08b')]: at least eight binary digits; a value of 256 or
    more takes as many digits as it needs. *)
Definition format_08b (n : Z) : list bool :=
  to_bits (Nat.max 8 (Z.to_nat (Z.log2 n + 1))) n.

(** [int(s, 2)] for a bit list, most significant first. *)
Definition int2 (bs : list bool) : Z :=
  fold_left (fun acc b => 2 * acc + Z.b2z b) bs 0.

(** The loop [for i in range(0, len(binary), 8)] with its
    [len(byte) == 8] test: full groups of eight bits become bytes, a
    trailing partial group is dropped. *)
Fixpoint bytes_of_bits (bs : list bool) : list Z :=
  match bs with
  | b7 :: b6 :: b5 :: b4 :: b3 :: b2 :: b1 :: b0 :: rest =>
      int2 [b7; b6; b5; b4; b3; b2; b1; b0] :: bytes_of_bits rest
  | _ => []
  end.

(** [binary[-k:]] and [binary[:-k]] for [k <= len(binary)]. *)
Definition last_n {A} (k : nat) (l : list A) : list A :=
  skipn (length l - k) l.
Definition drop_last_n {A} (k : nat) (l : list A) : list A :=
  firstn (length l - k) l.

Definition bits_eqb (a b : list bool) : bool :=
  if list_eq_dec Bool.bool_dec a b then true else false.

(** ** Text: Python [str] as a list of code points *)

Definition text : Type := list Z.

Definition is_surrogate (c : Z) : bool := (0xD800 <=? c) && (c <=? 0xDFFF).

(** One code point of [str.encode('utf-8')]; [None] is
    [UnicodeEncodeError] (a lone surrogate). *)
Definition utf8_encode_cp (c : Z) : option (list Z) :=
  if c <? 0 then None
  else if c <? 0x80 then Some [c]
  else if c <? 0x800 then Some [0xC0 + c / 64; 0x80 + c mod 64]
  else if c <? 0x10000 then
    if is_surrogate c then None
    else Some [0xE0 + c / 4096; 0x80 + (c / 64) mod 64; 0x80 + c mod 64]
  else if c <=? 0x10FFFF then
    Some [0xF0 + c / 262144; 0x80 + (c / 4096) mod 64;
          0x80 + (c / 64) mod 64; 0x80 + c mod 64]
  else None.

Fixpoint utf8_encode (s : text) : option (list Z) :=
  match s with
  | [] => Some []
  | c :: s' =>
      match utf8_encode_cp c, utf8_encode s' with
      | Some bs, Some bs' => Some (bs ++ bs')
      | _, _ => None
      end
  end.

Definition in_range (lo hi b : Z) : bool := (lo <=? b) && (b <=? hi).
Definition is_cont (b : Z) : bool := in_range 0x80 0xBF b.

(** [bytes.decode('utf-8')], strict: the well-formed byte sequences of the
    Unicode standard (no overlong forms, no surrogates, nothing above
    U+10FFFF); [None] is [UnicodeDecodeError]. *)
Fixpoint utf8_decode (bs : list Z) : option text :=
  match bs with
  | [] => Some []
  | b0 :: r0 =>
      if in_range 0 0x7F b0 then option_map (cons b0) (utf8_decode r0)
      else if in_range 0xC2 0xDF b0 then
        match r0 with
        | b1 :: r1 =>
            if is_cont b1
            then option_map (cons ((b0 - 0xC0) * 64 + (b1 - 0x80)))
                            (utf8_decode r1)
            else None
        | _ => None
        end
      else if in_range 0xE0 0xEF b0 then
        match r0 with
        | b1 :: b2 :: r2 =>
            if in_range (if b0 =? 0xE0 then 0xA0 else 0x80)
                        (if b0 =? 0xED then 0x9F else 0xBF) b1
               && is_cont b2
            then option_map
                   (cons ((b0 - 0xE0) * 4096 + (b1 - 0x80) * 64 + (b2 - 0x80)))
                   (utf8_decode r2)
            else None
        | _ => None
        end
      else if in_range 0xF0 0xF4 b0 then
        match r0 with
        | b1 :: b2 :: b3 :: r3 =>
            if in_range (if b0 =? 0xF0 then 0x90 else 0x80)
                        (if b0 =? 0xF4 then 0x8F else 0xBF) b1
               && is_cont b2 && is_cont b3
            then option_map
                   (cons ((b0 - 0xF0) * 262144 + (b1 - 0x80) * 4096
                          + (b2 - 0x80) * 64 + (b3 - 0x80)))
                   (utf8_decode r3)
            else None
        | _ => None
        end
      else None
  end.

(** [bytes.decode('latin-1')]: byte [b] is code point [b]; the codec
    accepts every value a [bytearray] can hold, that is [0..255]. *)
Definition latin1_decode (bs : list Z) : option text :=
  if forallb (in_range 0 255) bs then Some bs else None.

(** ** Candidates and their order *)

(** A candidate is the tuple [(x, y, importance)]. *)
Definition candidate : Type := (nat * nat * Z)%type.

Definition cand_x (c : candidate) : nat := fst (fst c).
Definition cand_y (c : candidate) : nat := snd (fst c).
Definition cand_imp (c : candidate) : Z := snd c.

(** An importance map is read as [importance_map[y, x]]. *)
Definition importance : Type := nat -> nat -> Z.

(** The selection loops of [encode_ai] and [decode_ai]: the pixels with
    [importance_map[y, x] >= threshold], in row-major order. *)
Definition candidates (m : importance) (w h : nat) (threshold : Z)
  : list candidate :=
  flat_map (fun xy : nat * nat =>
              let (x, y) := xy in
              if threshold <=? m y x then [(x, y, m y x)] else [])
           (raster w h).

(** [list.sort] is stable: elements that compare equal keep their input
    order.  [insert_by le a l] puts [a], which preceded every element of
    [l] in the input, in front of the first [b] with [le a b]. *)
Fixpoint insert_by {A} (le : A -> A -> bool) (a : A) (l : list A) : list A :=
  match l with
  | [] => [a]
  | b :: l' => if le a b then a :: l else b :: insert_by le a l'
  end.

Definition stable_sort {A} (le : A -> A -> bool) (l : list A) : list A :=
  fold_right (insert_by le) [] l.

(** [a] and [b] compare equal. *)
Definition same_key {A} (le : A -> A -> bool) (a b : A) : bool :=
  le a b && le b a.

(** Encoder: [pixel_importance.sort(key=lambda p: p[2], reverse=True)];
    [a] may stay in front of [b] when its key is not smaller. *)
Definition enc_le (a b : candidate) : bool := cand_imp b <=? cand_imp a.

Definition sort_enc : list candidate -> list candidate := stable_sort enc_le.

(** [-p[2]] on a NumPy [uint8] scalar: negation modulo 256. *)
Definition neg_uint8 (v : Z) : Z := (- v) mod 256.

(** Decoder: [pixel_importance.sort(key=lambda p: (-p[2], p[0], p[1]))];
    tuples compare lexicographically. *)
Definition dec_key (c : candidate) : Z * nat * nat :=
  (neg_uint8 (cand_imp c), cand_x c, cand_y c).

Definition key_le (k1 k2 : Z * nat * nat) : bool :=
  let '(n1, x1, y1) := k1 in
  let '(n2, x2, y2) := k2 in
  if n1 <? n2 then true
  else if n2 <? n1 then false
  else if (x1 <? x2)%nat then true
  else if (x2 <? x1)%nat then false
  else (y1 <=? y2)%nat.

Definition dec_le (a b : candidate) : bool := key_le (dec_key a) (dec_key b).

Definition sort_dec : list candidate -> list candidate := stable_sort dec_le.

(** ** Terminators, as the string literals of the sources *)

(** [ai_encoder.py]: the literal appended to [binary_message], 63 ones and
    a zero. *)
Definition ai_encoder_terminator : list bool := repeat true 63 ++ [false].

(** [ai_decoder.py]: [('1' * 64 + '11111110')[:64]]. *)
Definition ai_decoder_terminator : list bool :=
  firstn 64 (repeat true 64
             ++ [true; true; true; true; true; true; true; false]).

(** [lsb_encoder.py] and [decode_lsb]: ['11111110']. *)
Definition lsb_terminator : list bool :=
  [true; true; true; true; true; true; true; false].

(** [decode_standard_lsb]: ['00000000']. *)
Definition standard_terminator : list bool := repeat false 8.

(** ** Writing and reading least-significant bits *)

(** The write loop of [encode_ai] (over the sorted candidates) and of
    [encode_lsb] (over the raster, where the [else: break] ends the writes
    once the bits are used up): bit [idx] goes to the red channel of the
    [idx]-th pixel of the sequence, as long as there is one. *)
Fixpoint write_bits (img : image) (bits : list bool) (seqn : list (nat * nat))
  : image :=
  match bits, seqn with
  | bit :: bits', (x, y) :: seqn' =>
      let '(r, g, b) := px img x y in
      write_bits (set_px img x y (set_lsb r bit, g, b)) bits' seqn'
  | _, _ => img
  end.

Definition coords (cs : list candidate) : list (nat * nat) :=
  map (fun c => (cand_x c, cand_y c)) cs.

(** One channel of [encode_lsb_multi_channel]:
    [if 'c' in channels and idx < len(binary_message)]. *)
Definition put_bit (use : bool) (v : Z) (bits : list bool) : Z * list bool :=
  if use then
    match bits with
    | bit :: rest => (set_lsb v bit, rest)
    | [] => (v, [])
    end
  else (v, bits).

(** The write loop of [encode_lsb_multi_channel]. *)
Fixpoint write_multi (use_r use_g use_b : bool) (img : image)
  (bits : list bool) (seqn : list (nat * nat)) : image :=
  match seqn with
  | [] => img
  | (x, y) :: seqn' =>
      match bits with
      | [] => img
      | _ :: _ =>
          let '(r, g, b) := px img x y in
          let '(r', bits1) := put_bit use_r r bits in
          let '(g', bits2) := put_bit use_g g bits1 in
          let '(b', bits3) := put_bit use_b b bits2 in
          write_multi use_r use_g use_b (set_px img x y (r', g', b'))
                      bits3 seqn'
      end
  end.

(** The extraction loop of [decode_ai]: append the red LSB of each
    candidate; stop, dropping them, as soon as the last 64 bits read are
    the terminator. *)
Fixpoint extract_ai (img : image) (cs : list candidate) (binary : list bool)
  : list bool :=
  match cs with
  | [] => binary
  | c :: cs' =>
      let binary' := binary ++ [lsb (red (px img (cand_x c) (cand_y c)))] in
      if (64 <=? length binary')%nat
         && bits_eqb (last_n 64 binary') ai_decoder_terminator
      then drop_last_n 64 binary'
      else extract_ai img cs' binary'
  end.

(** The extraction loops of [decode_lsb] and [decode_standard_lsb]: each
    pixel contributes [per_pixel img x y]; after each pixel, when the
    length is a positive multiple of 8 and the last 8 bits are the
    terminator, they are dropped and both loops are left. *)
Fixpoint extract_raster (per_pixel : pixel -> list bool)
  (terminator : list bool) (img : image) (seqn : list (nat * nat))
  (binary : list bool) : list bool :=
  match seqn with
  | [] => binary
  | (x, y) :: seqn' =>
      let binary' := binary ++ per_pixel (px img x y) in
      if (length binary' mod 8 =? 0)%nat && (8 <=? length binary')%nat
         && bits_eqb (last_n 8 binary') terminator
      then drop_last_n 8 binary'
      else extract_raster per_pixel terminator img seqn' binary'
  end.

Definition red_bit (p : pixel) : list bool := [lsb (red p)].
Definition rgb_bits (p : pixel) : list bool :=
  [lsb (red p); lsb (green p); lsb (blue p)].

(** ** The uniform encoders and decoders *)

(** [''.join(format(ord(char), '08b') for char in message) + '11111110'] *)
Definition lsb_frame (message : text) : list bool :=
  flat_map format_08b message ++ lsb_terminator.

(** [lsb_encoder.encode_lsb]; the result is the image saved at
    [output_path].  The backup copy is taken to succeed. *)
Definition encode_lsb (f : file) (message : text) : result image :=
  _ <- validate_image_path f ;;
  max_chars <- calculate_max_message_size f ;;
  if Z.of_nat (length message) >? max_chars
  then Err (MessageTooLarge max_chars)
  else
    img <- open_image f ;;
    Ok (write_bits img (lsb_frame message)
                   (raster (width img) (height img))).

Definition has_channel (c : String.string) (channels : list String.string)
  : bool :=
  existsb (String.eqb c) channels.

(** [lsb_encoder.encode_lsb_multi_channel] *)
Definition encode_lsb_multi_channel (f : file) (message : text)
  (channels : list String.string) : result image :=
  _ <- validate_image_path f ;;
  size <- calculate_max_message_size f ;;
  let max_chars := size * Z.of_nat (length channels) in
  if Z.of_nat (length message) >? max_chars
  then Err (MessageTooLarge max_chars)
  else
    img <- open_image f ;;
    Ok (write_multi (has_channel "r"%string channels)
                    (has_channel "g"%string channels)
                    (has_channel "b"%string channels)
                    img (lsb_frame message)
                    (raster (width img) (height img))).

(** [lsb_decoder.decode_lsb]: the characters are [chr(int(char, 2))] of
    the full 8-bit groups; an empty message is returned as [""]. *)
Definition decode_lsb (f : file) : result text :=
  _ <- validate_image_path f ;;
  img <- open_image f ;;
  let binary := extract_raster red_bit lsb_terminator img
                               (raster (width img) (height img)) [] in
  Ok (bytes_of_bits binary).

(** [lsb_decoder.decode_standard_lsb] *)
Definition decode_standard_lsb (f : file) : result text :=
  _ <- validate_image_path f ;;
  img <- open_image f ;;
  let binary := extract_raster rgb_bits standard_terminator img
                               (raster (width img) (height img)) [] in
  Ok (bytes_of_bits binary).

(** ** Names, as [decode_ai] resolves them *)

(** The names bound at the top level of [ai_decoder.py].  The module
    consists of the definition of [decode_ai] alone: it has no import
    statement and no assignment outside that function (the imports of
    lines 13-17 bind locals of [decode_ai]). *)
Definition ai_decoder_globals : list String.string := ["decode_ai"%string].

(** Reading a name that is no local of the running function and no
    builtin: it is looked up in the globals of the module, and a miss
    raises [NameError]. *)
Definition load_global (globals : list String.string) (name : String.string)
  : result unit :=
  if existsb (String.eqb name) globals then Ok tt else Err (NameError name).

(** Reading a local variable: [UnboundLocalError] as long as no assignment
    to it has run. *)
Definition load_local (bound : bool) (name : String.string) : result unit :=
  if bound then Ok tt else Err (UnboundLocalError name).

(** ** The importance-guided encoder and decoder *)

(** The text stage of [decode_ai]: strict UTF-8, then Latin-1, then the
    innermost handler, whose outcome is [fallback]. *)
Definition decode_bytes (byte_array : list Z) (fallback : result text)
  : result text :=
  match utf8_decode byte_array with
  | Some s => Ok s
  | None =>
      match latin1_decode byte_array with
      | Some s => Ok s
      | None => fallback
      end
  end.

Definition clear_red_lsb (p : pixel) : pixel :=
  let '(r, g, b) := p in (Z.land r 0xFE, g, b).

Definition gray_rows (gray : pixel -> Z) (img : image) : list (list Z) :=
  map (map gray) (rows img).

Section Collaborators.

(** The image-processing collaborators, per pixel and per image:
    [cv2.imread(_, IMREAD_GRAYSCALE)], [cv2.cvtColor(_, COLOR_BGR2GRAY)],
    and [sobel] followed by [cv2.normalize(_, None, 0, 255, NORM_MINMAX)],
    read at [[y, x]] and truncated to an integer. *)
Variable imread_gray : pixel -> Z.
Variable bgr2gray : pixel -> Z.
Variable edge_norm : list (list Z) -> nat -> nat -> Z.

(** The map [ai_encoder.generate_importance_map] computes from a loaded
    image; [.astype(np.uint8)] stores the score modulo 256. *)
Definition enc_map (img : image) : importance :=
  fun y x => edge_norm (gray_rows imread_gray img) y x mod 256.

(** The map of the [generate_importance_map] nested in [decode_ai]: the
    red LSB is cleared ([& 0xFE]) before the grayscale conversion. *)
Definition dec_map (img : image) : importance :=
  fun y x =>
    edge_norm (gray_rows (fun p => bgr2gray (clear_red_lsb p)) img) y x
    mod 256.

(** [ai_encoder.generate_importance_map] *)
Definition generate_importance_map (f : file) : result importance :=
  _ <- validate_image_path f ;;
  img <- open_image f ;;
  Ok (enc_map img).

(** The [generate_importance_map] nested in [decode_ai]. *)
Definition generate_importance_map_dec (f : file) : result importance :=
  img <- open_image f ;;
  Ok (dec_map img).

(** The candidate sequence of [encode_ai]. *)
Definition pixel_importance_enc (m : importance) (img : image)
  (threshold : Z) : list candidate :=
  sort_enc (candidates m (width img) (height img) threshold).

(** The candidate sequence of [decode_ai]. *)
Definition pixel_importance_dec (m : importance) (img : image)
  (threshold : Z) : list candidate :=
  sort_dec (candidates m (width img) (height img) threshold).

(** The framed bit string of [encode_ai]. *)
Definition ai_frame (message_bytes : list Z) : list bool :=
  flat_map format_08b message_bytes ++ ai_encoder_terminator.

(** [ai_encoder.encode_ai]; the result is the image saved as PNG.  The
    backup copy never raises. *)
Definition encode_ai (f : file) (message : text) (threshold : Z)
  : result image :=
  _ <- validate_image_path f ;;
  max_chars <- calculate_max_message_size f ;;
  if Z.of_nat (length message) >? max_chars
  then Err (MessageTooLarge max_chars)
  else
    importance_map <- generate_importance_map f ;;
    img <- open_image f ;;
    let pixel_importance := pixel_importance_enc importance_map img threshold in
    match utf8_encode message with
    | None => Err UnicodeEncodeError
    | Some message_bytes =>
        let binary_message := ai_frame message_bytes in
        if (length pixel_importance <? length binary_message)%nat
        then Err (NotEnoughPixels (length binary_message)
                                  (length pixel_importance))
        else Ok (write_bits img binary_message (coords pixel_importance))
    end.

(** The bits [decode_ai] extracts from an image. *)
Definition ai_bits (m : importance) (img : image) (threshold : Z)
  : list bool :=
  extract_ai img (pixel_importance_dec m img threshold) [].

(** Lines 23-75 of [decode_ai], the statements of the outer [try] that
    follow the assignment to [logger]: the nested importance map, the
    candidates, the extraction loop, the bytes and the text stage. *)
Definition decode_ai_guided (f : file) (threshold : Z) : result text :=
  importance_map <- generate_importance_map_dec f ;;
  img <- open_image f ;;
  decode_bytes (bytes_of_bits (ai_bits importance_map img threshold))
               (decode_lsb f).

(** The body of the outer [try] of [decode_ai] (lines 13-75), paired with
    the state of the local [logger] when the body is left: [true] once
    line 21, the only assignment to [logger], has run.  Line 20 reads the
    global [validate_image_path] before it calls it; the call is the one
    the modules that import the name from [utils] make.  The imports of
    lines 13-17 are taken to succeed. *)
Definition decode_ai_try (f : file) (threshold : Z) : result text * bool :=
  match load_global ai_decoder_globals "validate_image_path" with
  | Err e => (Err e, false)
  | Ok _ =>
      match validate_image_path f with
      | Err e => (Err e, false)
      | Ok _ => (decode_ai_guided f threshold, true)
      end
  end.

(** The handler of the outer [try] (lines 77-80):
    [logger.error(...)], then [return decode_lsb(image_path)], whose own
    exceptions propagate. *)
Definition decode_ai_except (logger_bound : bool) (f : file) : result text :=
  _ <- load_local logger_bound "logger" ;;
  decode_lsb f.

(** [ai_decoder.decode_ai] *)
Definition decode_ai (f : file) (threshold : Z) : result text :=
  match decode_ai_try f threshold with
  | (Ok s, _) => Ok s
  | (Err _, logger_bound) => decode_ai_except logger_bound f
  end.

End Collaborators.

(** * The loops seen on bit sequences *)

(** The red LSBs of a candidate sequence, in order. *)
Definition candidate_bits (img : image) (cs : list candidate) : list bool :=
  map (fun c => lsb (red (px img (cand_x c) (cand_y c)))) cs.

(** The channel LSBs of an image in raster order: red only, and red,
    green, blue per pixel. *)
Definition raster_bits1 (img : image) : list bool :=
  map (fun xy => lsb (red (px img (fst xy) (snd xy))))
      (raster (width img) (height img)).

Definition raster_bits3 (img : image) : list bool :=
  flat_map (fun xy => rgb_bits (px img (fst xy) (snd xy)))
           (raster (width img) (height img)).

(** The extraction loop of [decode_ai] seen on the sequence of bits the
    candidates hold. *)
Fixpoint scan_ai (bits binary : list bool) : list bool :=
  match bits with
  | [] => binary
  | bit :: bits' =>
      let binary' := binary ++ [bit] in
      if (64 <=? length binary')%nat
         && bits_eqb (last_n 64 binary') ai_decoder_terminator
      then drop_last_n 64 binary'
      else scan_ai bits' binary'
  end.

(** The extraction loop of the raster decoders seen on the sequence of
    bit groups the pixels contribute. *)
Fixpoint scan_raster (terminator : list bool) (chunks : list (list bool))
  (binary : list bool) : list bool :=
  match chunks with
  | [] => binary
  | chunk :: chunks' =>
      let binary' := binary ++ chunk in
      if (length binary' mod 8 =? 0)%nat && (8 <=? length binary')%nat
         && bits_eqb (last_n 8 binary') terminator
      then drop_last_n 8 binary'
      else scan_raster terminator chunks' binary'
  end.

(** A bit sequence as it is read one channel per pixel, and three
    channels per pixel. *)
Definition singles (bits : list bool) : list (list bool) :=
  map (fun b => [b]) bits.

Fixpoint triples (bits : list bool) : list (list bool) :=
  match bits with
  | r :: g :: b :: rest => [r; g; b] :: triples rest
  | _ => []
  end.

(** * Specification predicates *)

(** [out] differs from [img] at most in the red LSB of the pixels listed
    in [touched]. *)
Definition red_lsb_only (img out : image) (touched : list (nat * nat))
  : Prop :=
  width out = width img /\ height out = height img /\
  forall x y,
    green (px out x y) = green (px img x y) /\
    blue (px out x y) = blue (px img x y) /\
    (forall i, 0 < i ->
       Z.testbit (red (px out x y)) i = Z.testbit (red (px img x y)) i) /\
    (px out x y <> px img x y -> In (x, y) touched).

(** The 64-bit terminator occurs nowhere in [bits]. *)
Definition never_terminated (bits : list bool) : Prop :=
  forall i, firstn 64 (skipn i bits) <> repeat true 64.

(** A value a [bytearray] holds. *)
Definition is_byte (b : Z) : Prop := 0 <= b <= 255.

(** What the two text decodings of [decode_ai] make of a byte array:
    its UTF-8 text when it is valid UTF-8, its Latin-1 text otherwise. *)
Definition text_of_bytes (byte_array : list Z) : text :=
  match utf8_decode byte_array with
  | Some s => s
  | None => byte_array
  end.

(** * Concrete inputs for the examples *)

(** A solid-colour image. *)
Definition flat_image (w h : nat) (p : pixel) : image :=
  mkImage w h (fun _ _ => p).

(** An 8x8 image of colour (10, 0, 0) whose top-left pixel is (11, 0, 0):
    the two colours differ in the red LSB alone. *)
Definition dented_image : image :=
  mkImage 8 8 (fun x y =>
                 if (x =? 0)%nat && (y =? 0)%nat
                 then (11, 0, 0) else (10, 0, 0)).

(** Two sample grayscale conversions for the examples: the ITU-R BT.601
    luma rounded to the nearest integer, and rounded down.  They are not
    OpenCV's conversions, which are fixed-point approximations of the
    same weights and differ from either on some colours; every theorem
    holds for all conversions, and the examples only instantiate them. *)
Definition luma (p : pixel) : Z :=
  let '(r, g, b) := p in (299 * r + 587 * g + 114 * b + 500) / 1000.

Definition luma_floor (p : pixel) : Z :=
  let '(r, g, b) := p in (299 * r + 587 * g + 114 * b) / 1000.

(** The edge response to an image without edges: Sobel of a constant
    image is zero everywhere, and min-max normalising a constant array
    yields zeros. *)
Definition no_edges : list (list Z) -> nat -> nat -> Z := fun _ _ _ => 0.

(** An importance map of equal scores. *)
Definition map_all_7 : importance := fun _ _ => 7.

(** * The format detector and the wrappers *)

(** The strings ['stegai'], ['standard'] and ['unknown']. *)
Inductive encoding_format : Type :=
| Stegai
| Standard
| Unknown.

(** [lsb_decoder.detect_encoding_format]: each decoder is tried in its own
    [try]; an exception or an empty message moves on to the next one. *)
Definition detect_encoding_format (f : file) : encoding_format :=
  match decode_lsb f with
  | Ok (_ :: _) => Stegai
  | _ =>
      match decode_standard_lsb f with
      | Ok (_ :: _) => Standard
      | _ => Unknown
      end
  end.

(** [ai_analyzer.smart_encode] and [ai_analyzer.smart_decode]. *)
Definition smart_encode (imread_gray : pixel -> Z)
  (edge_norm : list (list Z) -> nat -> nat -> Z)
  (f : file) (message : text) (threshold : Z) : result image :=
  encode_ai imread_gray edge_norm f message threshold.

Definition smart_decode (bgr2gray : pixel -> Z)
  (edge_norm : list (list Z) -> nat -> nat -> Z)
  (f : file) (threshold : Z) : result text :=
  decode_ai bgr2gray edge_norm f threshold.

(** The part of a message in front of its first character U+00FE. *)
Fixpoint before_fe (s : text) : text :=
  match s with
  | [] => []
  | c :: s' => if c =? 254 then [] else c :: before_fe s'
  end.

(** [a] and [b] differ at most in their least-significant bit. *)
Definition same_high_bits (a b : Z) : Prop :=
  forall i, 0 < i -> Z.testbit a i = Z.testbit b i.

(** [out] has the size of [img]; every channel value differs from the
    original at most in its LSB, and a channel that is not in use keeps
    its value. *)
Definition lsbs_only (use_r use_g use_b : bool) (img out : image) : Prop :=
  width out = width img /\ height out = height img /\
  forall x y,
    same_high_bits (red (px out x y)) (red (px img x y)) /\
    same_high_bits (green (px out x y)) (green (px img x y)) /\
    same_high_bits (blue (px out x y)) (blue (px img x y)) /\
    (use_r = false -> red (px out x y) = red (px img x y)) /\
    (use_g = false -> green (px out x y) = green (px img x y)) /\
    (use_b = false -> blue (px out x y) = blue (px img x y)).

(** A stand-in edge response whose scores grow along each row. *)
Definition ramp_edges : list (list Z) -> nat -> nat -> Z :=
  fun _ _ x => Z.of_nat x + 1.

(** A stand-in edge response whose score is the column index. *)
Definition column_edges : list (list Z) -> nat -> nat -> Z :=
  fun _ _ x => Z.of_nat x.

(** A grayscale image all of whose values are equal. *)
Definition flat_gray (gray : list (list Z)) : bool :=
  forallb (forallb (Z.eqb (hd 0 (concat gray)))) gray.

(** A stand-in edge response that is zero on a flat grayscale image and
    255 at every position of any other. *)
Definition contrast_edges : list (list Z) -> nat -> nat -> Z :=
  fun gray _ _ => if flat_gray gray then 0 else 255.

(** * Properties *)

(** ** Bit operations *)

Lemma testbit_one_high (i : Z) : 0 < i -> Z.testbit 1 i = false.
Proof.
  intros Hi. apply Z.bits_above_log2; [lia | simpl; lia].
Qed.

Lemma testbit_b2z_high (b : bool) (i : Z) :
  0 < i -> Z.testbit (Z.b2z b) i = false.
Proof.
  intros Hi. destruct b; simpl.
  - now apply testbit_one_high.
  - apply Z.bits_0.
Qed.

Lemma set_lsb_high (v : Z) (bit : bool) (i : Z) :
  0 < i -> Z.testbit (set_lsb v bit) i = Z.testbit v i.
Proof.
  intros Hi. unfold set_lsb.
  rewrite Z.lor_spec, Z.land_spec, Z.lnot_spec by lia.
  rewrite testbit_one_high, testbit_b2z_high by lia.
  simpl. now rewrite andb_true_r, orb_false_r.
Qed.

Lemma set_lsb_low (v : Z) (bit : bool) : lsb (set_lsb v bit) = bit.
Proof.
  unfold lsb, set_lsb.
  rewrite Z.lor_spec, Z.land_spec, Z.lnot_spec by lia.
  rewrite Z.bit0_odd with (a := Z.b2z bit).
  change (Z.testbit 1 0) with true. simpl.
  rewrite andb_false_r. simpl. now destruct bit.
Qed.

(** ** The write loops touch red LSBs only *)

Lemma red_lsb_only_refl (img : image) (touched : list (nat * nat)) :
  red_lsb_only img img touched.
Proof.
  repeat split; auto. intros H. now elim H.
Qed.

Lemma write_bits_red_lsb_only (bits : list bool) :
  forall (seqn : list (nat * nat)) (img : image),
    red_lsb_only img (write_bits img bits seqn)
                 (firstn (length bits) seqn).
Proof.
  induction bits as [| bit bits IH]; intros seqn img.
  - destruct seqn; apply red_lsb_only_refl.
  - destruct seqn as [| [x y] seqn]; [apply red_lsb_only_refl |].
    simpl write_bits. destruct (px img x y) as [[r g] b] eqn:Hp.
    specialize (IH seqn (set_px img x y (set_lsb r bit, g, b))).
    destruct IH as (Hw & Hh & IH).
    split; [exact Hw | split; [exact Hh |]].
    intros x0 y0. destruct (IH x0 y0) as (Hg & Hb & Hr & Hin).
    rewrite Hg, Hb. simpl px in *.
    destruct ((x0 =? x)%nat && (y0 =? y)%nat) eqn:Heq.
    + apply andb_true_iff in Heq. destruct Heq as [Hx Hy].
      apply Nat.eqb_eq in Hx, Hy. subst x0 y0. rewrite Hp.
      repeat split; auto.
      * intros i Hi. rewrite Hr by exact Hi. simpl. now apply set_lsb_high.
      * intros _. simpl. now left.
    + repeat split; auto.
      intros Hne. simpl. right. now apply Hin.
Qed.

(** ** Inverting a successful encode *)

Lemma open_image_validated (f : file) (img : image) :
  validate_image_path f = Ok tt -> open_image f = Ok img ->
  f = Readable img.
Proof.
  destruct f as [| [|] [i |]]; simpl; try discriminate.
  intros _ H. now inversion H.
Qed.

Lemma encode_ai_ok_inv imread_gray edge_norm f message threshold out :
  encode_ai imread_gray edge_norm f message threshold = Ok out ->
  exists img m message_bytes,
    f = Readable img /\
    generate_importance_map imread_gray edge_norm f = Ok m /\
    utf8_encode message = Some message_bytes /\
    (Z.of_nat (length message) >?
       (Z.of_nat (width img * height img) - 8) / 8) = false /\
    (length (pixel_importance_enc m img threshold)
       <? length (ai_frame message_bytes))%nat = false /\
    out = write_bits img (ai_frame message_bytes)
                     (coords (pixel_importance_enc m img threshold)).
Proof.
  destruct f as [| [|] [img |]]; try discriminate.
  unfold encode_ai. simpl.
  destruct (_ >? _) eqn:Hcap; [discriminate |].
  destruct (utf8_encode message) as [bytes |] eqn:Hutf; [| discriminate].
  destruct (_ <? _)%nat eqn:Hfit; [discriminate |].
  intros H. inversion H; subst out.
  exists img. eexists. exists bytes.
  repeat split; try reflexivity; assumption.
Qed.

Lemma encode_lsb_ok_inv f message out :
  encode_lsb f message = Ok out ->
  exists img,
    f = Readable img /\
    (Z.of_nat (length message) >?
       (Z.of_nat (width img * height img) - 8) / 8) = false /\
    out = write_bits img (lsb_frame message)
                     (raster (width img) (height img)).
Proof.
  destruct f as [| [|] [img |]]; try discriminate.
  unfold encode_lsb. simpl.
  destruct (_ >? _) eqn:Hcap; [discriminate |].
  intros H. inversion H; subst out.
  exists img. repeat split; auto.
Qed.

(** C9.  A successful single-channel encode ([encode_ai], or the uniform
    [encode_lsb]) leaves every green and blue value as it was, changes a
    red value at most in its least-significant bit, and changes no pixel
    outside the first [len(binary_message)] entries of the sequence it
    writes along (the sorted candidates, respectively the raster). *)
Theorem single_channel_encode_frame :
  forall imread_gray edge_norm f message threshold out,
    (encode_ai imread_gray edge_norm f message threshold = Ok out ->
     exists img m message_bytes,
       open_image f = Ok img /\
       generate_importance_map imread_gray edge_norm f = Ok m /\
       utf8_encode message = Some message_bytes /\
       red_lsb_only img out
         (firstn (length (ai_frame message_bytes))
                 (coords (pixel_importance_enc m img threshold))))
    /\
    (encode_lsb f message = Ok out ->
     exists img,
       open_image f = Ok img /\
       red_lsb_only img out
         (firstn (length (lsb_frame message))
                 (raster (width img) (height img)))).
Proof.
  intros imread_gray edge_norm f message threshold out. split; intros H.
  - apply encode_ai_ok_inv in H.
    destruct H as (img & m & bytes & -> & Hm & Hu & _ & _ & ->).
    exists img, m, bytes. repeat split; auto;
      apply write_bits_red_lsb_only.
  - apply encode_lsb_ok_inv in H. destruct H as (img & -> & _ & ->).
    exists img. split; [reflexivity |]. apply write_bits_red_lsb_only.
Qed.

Lemma single_channel_encode_frame_witness :
  exists out img,
    encode_lsb (Readable (flat_image 8 4 (10, 20, 30))) [104; 105] = Ok out /\
    open_image (Readable (flat_image 8 4 (10, 20, 30))) = Ok img /\
    red_lsb_only img out
      (firstn (length (lsb_frame [104; 105]))
              (raster (width img) (height img))).
Proof.
  destruct (encode_lsb (Readable (flat_image 8 4 (10, 20, 30))) [104; 105])
    as [out | e] eqn:E.
  - destruct (proj2 (single_channel_encode_frame
                       luma no_edges _ _ 0 out) E) as (img & Himg & H).
    exists out, img. repeat split; try assumption; apply H.
  - vm_compute in E. discriminate E.
Defined.


(** ** Bytes and the text stage of [decode_ai] *)

Lemma int2_byte (b7 b6 b5 b4 b3 b2 b1 b0 : bool) :
  is_byte (int2 [b7; b6; b5; b4; b3; b2; b1; b0]).
Proof.
  unfold is_byte.
  destruct b7, b6, b5, b4, b3, b2, b1, b0; cbv; split; discriminate.
Qed.

Lemma list_ind8 {A} (P : list A -> Prop) :
  (forall l, (length l < 8)%nat -> P l) ->
  (forall a7 a6 a5 a4 a3 a2 a1 a0 l,
      P l -> P (a7 :: a6 :: a5 :: a4 :: a3 :: a2 :: a1 :: a0 :: l)) ->
  forall l, P l.
Proof.
  intros Hshort Hstep l.
  assert (H : forall n l, (length l <= n)%nat -> P l).
  { induction n as [| n IH]; intros l0 Hl.
    - apply Hshort. lia.
    - destruct l0 as [| a7 [| a6 [| a5 [| a4 [| a3 [| a2 [| a1 [| a0 l0]]]]]]]];
        try (apply Hshort; simpl; lia).
      apply Hstep, IH. simpl in Hl. lia. }
  apply (H (length l)). lia.
Qed.

Lemma bytes_of_bits_short (bs : list bool) :
  (length bs < 8)%nat -> bytes_of_bits bs = [].
Proof.
  intros H.
  destruct bs as [| a7 [| a6 [| a5 [| a4 [| a3 [| a2 [| a1 [| a0 l0]]]]]]]];
    try reflexivity.
  simpl in H. lia.
Qed.

Lemma bytes_of_bits_are_bytes (bs : list bool) :
  Forall is_byte (bytes_of_bits bs).
Proof.
  induction bs as [l Hl | a7 a6 a5 a4 a3 a2 a1 a0 l IH] using list_ind8.
  - rewrite bytes_of_bits_short by exact Hl. constructor.
  - change (Forall is_byte
              (int2 [a7; a6; a5; a4; a3; a2; a1; a0] :: bytes_of_bits l)).
    constructor; [apply int2_byte | exact IH].
Qed.

Lemma bytes_of_bits_length (bs : list bool) :
  (8 * length (bytes_of_bits bs) <= length bs)%nat.
Proof.
  induction bs as [l Hl | a7 a6 a5 a4 a3 a2 a1 a0 l IH] using list_ind8.
  - rewrite bytes_of_bits_short by exact Hl. simpl. lia.
  - change (bytes_of_bits (a7 :: a6 :: a5 :: a4 :: a3 :: a2 :: a1 :: a0 :: l))
      with (int2 [a7; a6; a5; a4; a3; a2; a1; a0] :: bytes_of_bits l).
    simpl length. lia.
Qed.

Lemma latin1_decode_bytes (bs : list Z) :
  Forall is_byte bs -> latin1_decode bs = Some bs.
Proof.
  intros H. unfold latin1_decode.
  replace (forallb (in_range 0 255) bs) with true; [reflexivity |].
  symmetry. apply forallb_forall. intros b Hb.
  rewrite Forall_forall in H. specialize (H b Hb).
  unfold is_byte in H. unfold in_range.
  apply andb_true_iff. split; apply Z.leb_le; lia.
Qed.

Lemma decode_bytes_total (bits : list bool) (fallback : result text) :
  decode_bytes (bytes_of_bits bits) fallback
  = Ok (text_of_bytes (bytes_of_bits bits)).
Proof.
  unfold decode_bytes, text_of_bytes.
  destruct (utf8_decode (bytes_of_bits bits)); [reflexivity |].
  now rewrite latin1_decode_bytes by apply bytes_of_bits_are_bytes.
Qed.

(** ** [decode_ai]: what runs and what does not *)

Section DecodeAI.

Variable bgr2gray : pixel -> Z.
Variable edge_norm : list (list Z) -> nat -> nat -> Z.

(** Line 20 raises [NameError] on every call: the name it reads is not
    among the globals of the module. *)
Lemma decode_ai_try_raises (f : file) (threshold : Z) :
  decode_ai_try bgr2gray edge_norm f threshold
  = (Err (NameError "validate_image_path"), false).
Proof. reflexivity. Qed.

(** The handler then reads [logger], which line 21 never assigned. *)
Lemma decode_ai_unbound_logger (f : file) (threshold : Z) :
  decode_ai bgr2gray edge_norm f threshold = Err (UnboundLocalError "logger").
Proof.
  unfold decode_ai. now rewrite decode_ai_try_raises.
Qed.

(** What lines 23-75 compute for a decodable image. *)
Lemma decode_ai_guided_readable (img : image) (threshold : Z) :
  decode_ai_guided bgr2gray edge_norm (Readable img) threshold
  = Ok (text_of_bytes (bytes_of_bits (ai_bits (dec_map bgr2gray edge_norm img) img threshold))).
Proof.
  unfold decode_ai_guided. simpl. apply decode_bytes_total.
Qed.

End DecodeAI.

(** C10.  Latin-1 decodes every byte array, so the text stage of
    [decode_ai] never reaches its innermost handler: whatever that handler
    would return, the bytes built from the extracted bits decode to their
    UTF-8 text when they are valid UTF-8 and to their Latin-1 text
    otherwise. *)
Theorem latin1_fallback_unreachable :
  (forall byte_array,
      Forall is_byte byte_array ->
      latin1_decode byte_array = Some byte_array) /\
  (forall bits fallback,
      decode_bytes (bytes_of_bits bits) fallback
      = Ok (match utf8_decode (bytes_of_bits bits) with
            | Some s => s
            | None => bytes_of_bits bits
            end)).
Proof.
  split; [exact latin1_decode_bytes | exact decode_bytes_total].
Qed.

Lemma latin1_fallback_unreachable_witness :
  latin1_decode [104; 255; 254] = Some [104; 255; 254].
Proof.
  apply (proj1 latin1_fallback_unreachable).
  repeat constructor; unfold is_byte; lia.
Defined.

(** C7 at every input.  [decode_ai] returns no string.  Line 20 reads the
    global [validate_image_path], which [ai_decoder.py] never binds: the
    body of the [try] raises [NameError] before line 21 assigns [logger].
    The handler starts with [logger.error(...)], reads the unassigned
    local and raises [UnboundLocalError], which reaches the caller; its
    [decode_lsb] is not called.  This holds for a decodable image as for
    a missing path, where the error is not [FileNotFoundError]. *)
Theorem decode_ai_raises_on_every_call :
  forall bgr2gray edge_norm f threshold,
    decode_ai_try bgr2gray edge_norm f threshold
    = (Err (NameError "validate_image_path"), false) /\
    decode_ai bgr2gray edge_norm f threshold
    = Err (UnboundLocalError "logger").
Proof.
  intros bgr2gray edge_norm f threshold.
  split; [apply decode_ai_try_raises | apply decode_ai_unbound_logger].
Qed.

(** ** The extraction loop without a terminator *)

Lemma bits_eqb_eq (a b : list bool) : bits_eqb a b = true <-> a = b.
Proof.
  unfold bits_eqb. destruct (list_eq_dec bool_dec a b); split;
    intros; congruence.
Qed.

Lemma extract_ai_scan (img : image) (cs : list candidate) :
  forall binary,
    extract_ai img cs binary = scan_ai (candidate_bits img cs) binary.
Proof.
  induction cs as [| c cs IH]; intros binary; simpl; [reflexivity |].
  now rewrite IH.
Qed.

Lemma last_n_window {A} (k : nat) (l rest : list A) :
  (k <= length l)%nat ->
  firstn k (skipn (length l - k) (l ++ rest)) = last_n k l.
Proof.
  intros Hk. unfold last_n.
  rewrite skipn_app, firstn_app.
  replace (length l - k - length l)%nat with 0%nat by lia.
  rewrite length_skipn.
  replace (k - (length l - (length l - k)))%nat with 0%nat by lia.
  simpl. rewrite app_nil_r.
  apply firstn_all2. rewrite length_skipn. lia.
Qed.

Lemma scan_ai_cons (bit : bool) (bits binary : list bool) :
  scan_ai (bit :: bits) binary
  = if (64 <=? length (binary ++ [bit]))%nat
       && bits_eqb (last_n 64 (binary ++ [bit])) ai_decoder_terminator
    then drop_last_n 64 (binary ++ [bit])
    else scan_ai bits (binary ++ [bit]).
Proof. reflexivity. Qed.

Lemma scan_ai_unterminated (bits : list bool) :
  forall binary,
    never_terminated (binary ++ bits) -> scan_ai bits binary = binary ++ bits.
Proof.
  induction bits as [| bit bits IH]; intros binary Hnt.
  - simpl. now rewrite app_nil_r.
  - rewrite scan_ai_cons.
    replace (binary ++ bit :: bits) with ((binary ++ [bit]) ++ bits) in *
      by now rewrite <- app_assoc.
    destruct (_ && _) eqn:Hstop.
    + apply andb_true_iff in Hstop. destruct Hstop as [Hlen Hterm].
      apply Nat.leb_le in Hlen. apply bits_eqb_eq in Hterm.
      exfalso. apply (Hnt (length (binary ++ [bit]) - 64)%nat).
      rewrite last_n_window by exact Hlen. exact Hterm.
    + now apply IH.
Qed.

Lemma short_never_terminated (bits : list bool) :
  (length bits < 64)%nat -> never_terminated bits.
Proof.
  intros Hlen i H. apply (f_equal (@length bool)) in H.
  rewrite length_firstn, length_skipn, repeat_length in H. lia.
Qed.

(** C6, amended.  When 64 consecutive ones occur nowhere in the bits held
    by the candidate pixels, the extraction loop of [decode_ai] ends with
    all of them kept; the full groups of eight become bytes (a trailing
    partial group is dropped) and the text stage turns them into a string,
    UTF-8 if valid and Latin-1 otherwise.  No statement of lines 48-72
    raises for want of a terminator. *)
Theorem unterminated_bits_are_kept :
  forall m img threshold,
    let bits := candidate_bits img (pixel_importance_dec m img threshold) in
    never_terminated bits ->
    ai_bits m img threshold = bits /\
    forall fallback,
      decode_bytes (bytes_of_bits (ai_bits m img threshold)) fallback
      = Ok (text_of_bytes (bytes_of_bits bits)).
Proof.
  intros m img threshold bits Hnt.
  assert (Hbits : ai_bits m img threshold = bits).
  { unfold ai_bits. rewrite extract_ai_scan.
    now apply (scan_ai_unterminated _ []). }
  split; [exact Hbits |].
  intros fallback. rewrite Hbits. apply decode_bytes_total.
Qed.

Lemma unterminated_bits_are_kept_witness :
  ai_bits (dec_map luma no_edges (flat_image 4 2 (104, 20, 30)))
          (flat_image 4 2 (104, 20, 30)) 0
  = repeat false 8.
Proof.
  apply (unterminated_bits_are_kept
           (dec_map luma no_edges (flat_image 4 2 (104, 20, 30)))
           (flat_image 4 2 (104, 20, 30)) 0).
  apply short_never_terminated. vm_compute. lia.
Defined.

(** C6 as stated fails: the eight candidate pixels of this image hold no
    terminator, and lines 48-72 yield the one-character string of their
    bits, not an error. *)
Lemma unframing_raises_no_error :
  decode_bytes
    (bytes_of_bits (ai_bits (fun _ _ => 0) (flat_image 4 2 (104, 20, 30)) 0))
    (Err FileNotFoundError)
  = Ok [0]
  /\
  ~ (forall m img threshold fallback,
       never_terminated
         (candidate_bits img (pixel_importance_dec m img threshold)) ->
       exists e,
         decode_bytes (bytes_of_bits (ai_bits m img threshold)) fallback
         = Err e).
Proof.
  split; [reflexivity |].
  intros H.
  destruct (H (fun _ _ => 0) (flat_image 4 2 (104, 20, 30)) 0
              (Err FileNotFoundError)) as [e He].
  - apply short_never_terminated. vm_compute. lia.
  - vm_compute in He. discriminate He.
Qed.

(** ** Lengths: raster, candidates, sorting, UTF-8 *)

Lemma raster_length (w h : nat) : length (raster w h) = (w * h)%nat.
Proof.
  unfold raster. generalize 0%nat at 2.
  induction h as [| h IH]; intros s; simpl.
  - lia.
  - rewrite length_app, length_map, length_seq, IH. lia.
Qed.

Lemma candidates_length (m : importance) (w h : nat) (threshold : Z) :
  (length (candidates m w h threshold) <= w * h)%nat.
Proof.
  unfold candidates. rewrite <- (raster_length w h).
  generalize (raster w h) as l.
  induction l as [| [x y] l IH]; simpl; [lia |].
  rewrite length_app.
  destruct (threshold <=? m y x); cbn [length]; unfold candidate in *; lia.
Qed.

Lemma insert_by_perm {A} (le : A -> A -> bool) (a : A) (l : list A) :
  Permutation (a :: l) (insert_by le a l).
Proof.
  induction l as [| b l IH]; simpl; [reflexivity |].
  destruct (le a b); [reflexivity |].
  rewrite perm_swap. now constructor.
Qed.

Lemma stable_sort_perm {A} (le : A -> A -> bool) (l : list A) :
  Permutation l (stable_sort le l).
Proof.
  induction l as [| a l IH]; simpl; [constructor |].
  rewrite <- insert_by_perm. now constructor.
Qed.

Lemma stable_sort_length {A} (le : A -> A -> bool) (l : list A) :
  length (stable_sort le l) = length l.
Proof. symmetry. apply Permutation_length, stable_sort_perm. Qed.

Lemma pixel_importance_enc_length m img threshold :
  (length (pixel_importance_enc m img threshold)
   <= width img * height img)%nat.
Proof.
  unfold pixel_importance_enc, sort_enc. rewrite stable_sort_length.
  apply candidates_length.
Qed.

Lemma pixel_importance_dec_length m img threshold :
  (length (pixel_importance_dec m img threshold)
   <= width img * height img)%nat.
Proof.
  unfold pixel_importance_dec, sort_dec. rewrite stable_sort_length.
  apply candidates_length.
Qed.

Lemma utf8_encode_cp_length (c : Z) (bs : list Z) :
  utf8_encode_cp c = Some bs -> (1 <= length bs)%nat.
Proof.
  unfold utf8_encode_cp.
  repeat match goal with
         | |- context [if ?b then _ else _] => destruct b
         end; intros H; inversion H; simpl; lia.
Qed.

Lemma utf8_encode_length (s : text) :
  forall bs, utf8_encode s = Some bs -> (length s <= length bs)%nat.
Proof.
  induction s as [| c s IH]; intros bs; simpl.
  - intros H. inversion H. simpl. lia.
  - destruct (utf8_encode_cp c) as [b1 |] eqn:Hc; [| discriminate].
    destruct (utf8_encode s) as [b2 |]; [| discriminate].
    intros H. inversion H. rewrite length_app.
    apply utf8_encode_cp_length in Hc. specialize (IH b2 eq_refl). lia.
Qed.

Lemma format_08b_length (n : Z) : (8 <= length (format_08b n))%nat.
Proof.
  unfold format_08b, to_bits. rewrite length_map, length_rev, length_seq.
  lia.
Qed.

Lemma flat_map_format_08b_length (bs : list Z) :
  (8 * length bs <= length (flat_map format_08b bs))%nat.
Proof.
  induction bs as [| b bs IH]; simpl; [lia |].
  rewrite length_app. pose proof (format_08b_length b). lia.
Qed.

Lemma ai_frame_length (bs : list Z) :
  (8 * length bs + 64 <= length (ai_frame bs))%nat.
Proof.
  unfold ai_frame. rewrite length_app.
  pose proof (flat_map_format_08b_length bs).
  change (length ai_encoder_terminator) with 64%nat. lia.
Qed.

(** ** The two capacity checks of [encode_ai] *)

Lemma encode_ai_readable imread_gray edge_norm img message threshold :
  encode_ai imread_gray edge_norm (Readable img) message threshold
  = let max_chars := (Z.of_nat (width img * height img) - 8) / 8 in
    let cs := pixel_importance_enc (enc_map imread_gray edge_norm img)
                                   img threshold in
    if Z.of_nat (length message) >? max_chars
    then Err (MessageTooLarge max_chars)
    else match utf8_encode message with
         | None => Err UnicodeEncodeError
         | Some message_bytes =>
             if (length cs <? length (ai_frame message_bytes))%nat
             then Err (NotEnoughPixels (length (ai_frame message_bytes))
                                       (length cs))
             else Ok (write_bits img (ai_frame message_bytes) (coords cs))
         end.
Proof.
  unfold encode_ai. simpl.
  destruct (_ >? _); reflexivity.
Qed.

(** A message whose framed bits fit the candidates passes the whole-image
    check as well. *)
Lemma fits_candidates_fits_image m img threshold message message_bytes :
  utf8_encode message = Some message_bytes ->
  (length (ai_frame message_bytes)
   <= length (pixel_importance_enc m img threshold))%nat ->
  (Z.of_nat (length message)
     >? (Z.of_nat (width img * height img) - 8) / 8) = false.
Proof.
  intros Hu Hfit.
  pose proof (utf8_encode_length _ _ Hu) as Hlen.
  pose proof (ai_frame_length message_bytes) as Hframe.
  pose proof (pixel_importance_enc_length m img threshold) as Hcs.
  rewrite Z.gtb_ltb. apply Z.ltb_ge.
  apply Z.div_le_lower_bound; lia.
Qed.

(** C4, amended.  For a decodable image and an encodable message,
    [encode_ai] raises before writing any pixel whenever the framed bits
    outnumber the candidates: the "Message too large" error, carrying the
    whole-image capacity [(width * height - 8) // 8], when the message has
    more characters than that capacity, and otherwise the "Not enough
    suitable pixels" error of the threshold-dependent candidate check.
    When the framed bits fit the candidates, the image is written. *)
Theorem encode_ai_capacity_checks :
  forall imread_gray edge_norm img message threshold message_bytes,
    utf8_encode message = Some message_bytes ->
    let max_chars := (Z.of_nat (width img * height img) - 8) / 8 in
    let cs := pixel_importance_enc (enc_map imread_gray edge_norm img)
                                   img threshold in
    let binary_message := ai_frame message_bytes in
    ((length cs < length binary_message)%nat ->
     encode_ai imread_gray edge_norm (Readable img) message threshold
     = if Z.of_nat (length message) >? max_chars
       then Err (MessageTooLarge max_chars)
       else Err (NotEnoughPixels (length binary_message) (length cs)))
    /\
    ((length binary_message <= length cs)%nat ->
     encode_ai imread_gray edge_norm (Readable img) message threshold
     = Ok (write_bits img binary_message (coords cs))).
Proof.
  intros imread_gray edge_norm img message threshold message_bytes Hu
         max_chars cs binary_message.
  rewrite encode_ai_readable. cbv zeta. fold max_chars cs.
  rewrite Hu. fold binary_message. split; intros Hlen.
  - destruct (_ >? _); [reflexivity |].
    apply Nat.ltb_lt in Hlen. now rewrite Hlen.
  - unfold max_chars.
    rewrite (fits_candidates_fits_image _ _ _ _ _ Hu Hlen).
    apply Nat.ltb_ge in Hlen. fold cs binary_message. now rewrite Hlen.
Qed.

Lemma encode_ai_capacity_checks_witness :
  encode_ai luma no_edges (Readable (flat_image 10 10 (10, 20, 30)))
            [104; 105] 100
  = Err (NotEnoughPixels 80 0).
Proof.
  apply (proj1 (encode_ai_capacity_checks luma no_edges
                  (flat_image 10 10 (10, 20, 30)) [104; 105] 100
                  [104; 105] eq_refl)).
  vm_compute. lia.
Defined.

(** C4 as stated fails: on a 10x10 image without candidates the message
    "hi" is rejected by the candidate check, not with the too-large error,
    and the too-large error (here for a 12-character message on the same
    image at threshold 0, where 100 candidates exist) reports the
    whole-image capacity 11. *)
Lemma too_large_error_is_whole_image :
  encode_ai luma no_edges (Readable (flat_image 10 10 (10, 20, 30)))
            [104; 105] 100
  = Err (NotEnoughPixels 80 0)
  /\
  encode_ai luma no_edges (Readable (flat_image 10 10 (10, 20, 30)))
            (repeat 104 12) 0
  = Err (MessageTooLarge 11)
  /\
  ~ (forall imread_gray edge_norm img message threshold message_bytes,
       utf8_encode message = Some message_bytes ->
       (length (pixel_importance_enc (enc_map imread_gray edge_norm img)
                                     img threshold)
        < length (ai_frame message_bytes))%nat ->
       exists n,
         encode_ai imread_gray edge_norm (Readable img) message threshold
         = Err (MessageTooLarge n)).
Proof.
  split; [reflexivity | split; [reflexivity |]].
  intros H.
  destruct (H luma no_edges (flat_image 10 10 (10, 20, 30)) [104; 105] 100
              [104; 105] eq_refl) as [n Hn].
  - vm_compute. lia.
  - vm_compute in Hn. discriminate Hn.
Qed.

(** ** [stable_sort] sorts, and keeps equal elements in input order *)

Section StableSort.

Context {A : Type} (le : A -> A -> bool).
Hypothesis le_total : forall a b, le a b = true \/ le b a = true.
Hypothesis le_trans :
  forall a b c, le a b = true -> le b c = true -> le a c = true.

Lemma insert_by_sorted (a : A) (l : list A) :
  StronglySorted (fun x y => le x y = true) l ->
  StronglySorted (fun x y => le x y = true) (insert_by le a l).
Proof.
  induction 1 as [| b l Hs IH Hb]; simpl.
  - constructor; constructor.
  - destruct (le a b) eqn:Hab.
    + constructor; [now constructor |].
      constructor; [exact Hab |].
      eapply Forall_impl; [| exact Hb]. intros c Hc. now apply (le_trans a b c).
    + constructor; [exact IH |].
      assert (Hba : le b a = true) by (destruct (le_total a b); congruence).
      eapply Permutation_Forall; [apply insert_by_perm |].
      now constructor.
Qed.

Lemma stable_sort_sorted (l : list A) :
  StronglySorted (fun x y => le x y = true) (stable_sort le l).
Proof.
  induction l as [| a l IH]; simpl; [constructor |].
  now apply insert_by_sorted.
Qed.

Lemma insert_by_stable (k a : A) (l : list A) :
  filter (same_key le k) (insert_by le a l) = filter (same_key le k) (a :: l).
Proof.
  induction l as [| b l IH]; [reflexivity |].
  cbn [insert_by]. destruct (le a b) eqn:Hab; [reflexivity |].
  cbn [filter] in *. rewrite IH.
  destruct (same_key le k a) eqn:Hka; [| reflexivity].
  destruct (same_key le k b) eqn:Hkb; [| reflexivity].
  unfold same_key in Hka, Hkb.
  apply andb_true_iff in Hka, Hkb. destruct Hka as [_ Hak], Hkb as [Hkb _].
  rewrite (le_trans a k b Hak Hkb) in Hab. discriminate Hab.
Qed.

Lemma stable_sort_stable (k : A) (l : list A) :
  filter (same_key le k) (stable_sort le l) = filter (same_key le k) l.
Proof.
  induction l as [| a l IH]; [reflexivity |].
  cbn [stable_sort fold_right]. fold (stable_sort le l).
  rewrite insert_by_stable. cbn [filter]. now rewrite IH.
Qed.

End StableSort.

Lemma StronglySorted_weaken {A} (R S : A -> A -> Prop) (l : list A) :
  (forall a b, R a b -> S a b) -> StronglySorted R l -> StronglySorted S l.
Proof.
  intros H. induction 1 as [| a l _ IH Ha]; constructor; [exact IH |].
  eapply Forall_impl; [| exact Ha]. intros b. apply H.
Qed.

Lemma enc_le_total (a b : candidate) : enc_le a b = true \/ enc_le b a = true.
Proof. unfold enc_le. rewrite !Z.leb_le. lia. Qed.

Lemma enc_le_trans (a b c : candidate) :
  enc_le a b = true -> enc_le b c = true -> enc_le a c = true.
Proof. unfold enc_le. rewrite !Z.leb_le. lia. Qed.

Lemma key_le_spec (k1 k2 : Z * nat * nat) :
  key_le k1 k2 = true <->
  let '(n1, x1, y1) := k1 in
  let '(n2, x2, y2) := k2 in
  n1 < n2 \/ (n1 = n2 /\ ((x1 < x2)%nat \/ (x1 = x2 /\ (y1 <= y2)%nat))).
Proof.
  destruct k1 as [[n1 x1] y1], k2 as [[n2 x2] y2]. unfold key_le.
  destruct (n1 <? n2) eqn:E1; [apply Z.ltb_lt in E1 | apply Z.ltb_ge in E1].
  { split; [intros _; now left | reflexivity]. }
  destruct (n2 <? n1) eqn:E2; [apply Z.ltb_lt in E2 | apply Z.ltb_ge in E2].
  { split; [discriminate | lia]. }
  destruct (x1 <? x2)%nat eqn:E3;
    [apply Nat.ltb_lt in E3 | apply Nat.ltb_ge in E3].
  { split; [intros _; right; lia | reflexivity]. }
  destruct (x2 <? x1)%nat eqn:E4;
    [apply Nat.ltb_lt in E4 | apply Nat.ltb_ge in E4].
  { split; [discriminate | lia]. }
  rewrite Nat.leb_le. lia.
Qed.

Lemma dec_le_total (a b : candidate) : dec_le a b = true \/ dec_le b a = true.
Proof.
  unfold dec_le. rewrite !key_le_spec.
  destruct (dec_key a) as [[n1 x1] y1], (dec_key b) as [[n2 x2] y2]. lia.
Qed.

Lemma dec_le_trans (a b c : candidate) :
  dec_le a b = true -> dec_le b c = true -> dec_le a c = true.
Proof.
  unfold dec_le. rewrite !key_le_spec.
  destruct (dec_key a) as [[n1 x1] y1], (dec_key b) as [[n2 x2] y2],
           (dec_key c) as [[n3 x3] y3]. lia.
Qed.

(** The encoder's sequence is in descending order of score, candidates of
    equal score in scan order; the decoder's is in ascending order of its
    key. *)
Lemma sort_enc_spec (l : list candidate) :
  Permutation l (sort_enc l) /\
  StronglySorted (fun a b => cand_imp b <= cand_imp a) (sort_enc l) /\
  forall v, filter (fun c => cand_imp c =? v) (sort_enc l)
            = filter (fun c => cand_imp c =? v) l.
Proof.
  split; [apply stable_sort_perm | split].
  - eapply StronglySorted_weaken;
      [| apply (stable_sort_sorted enc_le enc_le_total enc_le_trans)].
    intros a b H. unfold enc_le in H. now apply Z.leb_le.
  - intros v.
    pose proof (stable_sort_stable enc_le enc_le_trans (0%nat, 0%nat, v) l)
      as H.
    assert (E : forall c, same_key enc_le (0%nat, 0%nat, v) c
                          = (cand_imp c =? v)).
    { intros c. unfold same_key, enc_le. cbn [cand_imp snd].
      destruct (cand_imp c =? v) eqn:Ev;
        [apply Z.eqb_eq in Ev | apply Z.eqb_neq in Ev].
      - apply andb_true_iff. rewrite !Z.leb_le. lia.
      - apply andb_false_iff. rewrite !Z.leb_gt. lia. }
    rewrite !(filter_ext _ _ E) in H. exact H.
Qed.

Lemma sort_dec_spec (l : list candidate) :
  Permutation l (sort_dec l) /\
  StronglySorted (fun a b => key_le (dec_key a) (dec_key b) = true)
                 (sort_dec l).
Proof.
  split; [apply stable_sort_perm |].
  apply (stable_sort_sorted dec_le dec_le_total dec_le_trans).
Qed.

(** ** The two candidate orders *)

Lemma neg_uint8_pos (v : Z) : 0 < v < 256 -> neg_uint8 v = 256 - v.
Proof.
  intros Hv. unfold neg_uint8. Z.div_mod_to_equations. lia.
Qed.

Lemma le_agree (a b : candidate) :
  0 < cand_imp a < 256 -> 0 < cand_imp b < 256 ->
  cand_imp a <> cand_imp b ->
  enc_le a b = dec_le a b.
Proof.
  intros Ha Hb Hne. unfold enc_le, dec_le, dec_key, key_le.
  rewrite !neg_uint8_pos by assumption.
  destruct (256 - cand_imp a <? 256 - cand_imp b) eqn:H1.
  - apply Z.ltb_lt in H1. apply Z.leb_le. lia.
  - apply Z.ltb_ge in H1.
    destruct (256 - cand_imp b <? 256 - cand_imp a) eqn:H2.
    + apply Z.ltb_lt in H2. apply Z.leb_gt. lia.
    + apply Z.ltb_ge in H2. lia.
Qed.

Lemma insert_by_ext {A} (le1 le2 : A -> A -> bool) (a : A) (l : list A) :
  (forall b, In b l -> le1 a b = le2 a b) ->
  insert_by le1 a l = insert_by le2 a l.
Proof.
  induction l as [| b l IH]; intros H; simpl; [reflexivity |].
  rewrite (H b) by now left.
  destruct (le2 a b); [reflexivity |].
  f_equal. apply IH. intros c Hc. apply H. now right.
Qed.

(** Candidates whose scores are pairwise distinct and nonzero are ordered
    alike by the encoder and the decoder. *)
Lemma sorts_agree_distinct_nonzero (l : list candidate) :
  NoDup (map cand_imp l) ->
  Forall (fun c => 0 < cand_imp c < 256) l ->
  sort_enc l = sort_dec l.
Proof.
  unfold sort_enc, sort_dec.
  induction l as [| a l IH]; intros Hnd Hr; [reflexivity |].
  simpl in *. inversion Hnd as [| ? ? Hnotin Hnd']; subst.
  inversion Hr as [| ? ? Ha Hr']; subst.
  rewrite IH by assumption.
  apply insert_by_ext. intros b Hb.
  assert (Hbl : In b l).
  { eapply Permutation_in; [symmetry; apply stable_sort_perm | exact Hb]. }
  apply le_agree; auto.
  - rewrite Forall_forall in Hr'. now apply Hr'.
  - intros Heq. apply Hnotin. rewrite Heq. now apply in_map.
Qed.

Lemma candidates_in (m : importance) (w h : nat) (threshold : Z)
  (c : candidate) :
  In c (candidates m w h threshold) ->
  threshold <= cand_imp c /\ cand_imp c = m (cand_y c) (cand_x c).
Proof.
  unfold candidates. rewrite in_flat_map.
  intros [[x y] [_ Hc]].
  destruct (threshold <=? m y x) eqn:Ht; [| contradiction].
  destruct Hc as [<- | []]. apply Z.leb_le in Ht. now split.
Qed.

(** For a positive threshold and a [uint8] map, distinct scores make the
    candidate sequence of the decoder equal to that of the encoder. *)
Lemma candidate_orders_agree (m : importance) (img : image) (threshold : Z) :
  (forall y x, 0 <= m y x < 256) ->
  0 < threshold ->
  NoDup (map cand_imp
           (candidates m (width img) (height img) threshold)) ->
  pixel_importance_enc m img threshold = pixel_importance_dec m img threshold.
Proof.
  intros Hm Ht Hnd. unfold pixel_importance_enc, pixel_importance_dec.
  apply sorts_agree_distinct_nonzero; [exact Hnd |].
  apply Forall_forall. intros c Hc.
  apply candidates_in in Hc. destruct Hc as [Hge Heq].
  specialize (Hm (cand_y c) (cand_x c)). lia.
Qed.

(** Equal scores: the encoder keeps the row-major scan order, the decoder
    orders by [(x, y)].  On an 8x8 map of equal scores the second
    candidate of the encoder is the pixel (1, 0), that of the decoder the
    pixel (0, 1). *)
Lemma tie_orders_differ :
  firstn 2 (sort_enc (candidates map_all_7 8 8 1))
  = [(0%nat, 0%nat, 7); (1%nat, 0%nat, 7)]
  /\
  firstn 2 (sort_dec (candidates map_all_7 8 8 1))
  = [(0%nat, 0%nat, 7); (0%nat, 1%nat, 7)].
Proof. split; reflexivity. Qed.

(** The decoder's sequence starts with a candidate of score 0 whenever
    there is one: its key [-p[2]] is 0, the least a [uint8] can be. *)
Lemma sort_dec_head_zero (l : list candidate) (d : candidate)
  (rest : list candidate) :
  Forall (fun c => 0 <= cand_imp c < 256) l ->
  (exists c, In c l /\ cand_imp c = 0) ->
  sort_dec l = d :: rest ->
  cand_imp d = 0.
Proof.
  intros Hr (c & Hc & Hc0) Hsort.
  destruct (sort_dec_spec l) as [Hperm Hsorted]. rewrite Hsort in *.
  assert (Hd : 0 <= cand_imp d < 256).
  { rewrite Forall_forall in Hr. apply Hr.
    eapply Permutation_in; [symmetry; exact Hperm | now left]. }
  assert (Hin : In c (d :: rest))
    by (eapply Permutation_in; [exact Hperm | exact Hc]).
  destruct Hin as [-> | Hin]; [exact Hc0 |].
  apply StronglySorted_inv in Hsorted. destruct Hsorted as [_ Hall].
  rewrite Forall_forall in Hall. specialize (Hall c Hin).
  apply key_le_spec in Hall. unfold dec_key in Hall. rewrite Hc0 in Hall.
  change (neg_uint8 0) with 0 in Hall.
  assert (Hn : 0 <= neg_uint8 (cand_imp d))
    by (unfold neg_uint8; apply Z.mod_pos_bound; lia).
  assert (Hz : neg_uint8 (cand_imp d) = 0) by lia.
  unfold neg_uint8 in Hz. clear - Hd Hz.
  Z.div_mod_to_equations. lia.
Qed.

(** The encoder's sequence starts with a candidate of the highest score. *)
Lemma sort_enc_head_max (l : list candidate) (e : candidate)
  (rest : list candidate) :
  sort_enc l = e :: rest ->
  forall c, In c l -> cand_imp c <= cand_imp e.
Proof.
  intros Hsort c Hc.
  destruct (sort_enc_spec l) as (Hperm & Hsorted & _). rewrite Hsort in *.
  assert (Hin : In c (e :: rest))
    by (eapply Permutation_in; [exact Hperm | exact Hc]).
  destruct Hin as [-> | Hin]; [lia |].
  apply StronglySorted_inv in Hsorted. destruct Hsorted as [_ Hall].
  rewrite Forall_forall in Hall. now apply Hall.
Qed.

(** C3 on every map [encode_ai] accepts.  When the candidates include a
    pixel of score 0 and a pixel of positive score (which needs a
    threshold of 0 or less), the decoder's sequence starts with a
    candidate of score 0 and the encoder's with one of positive score: the
    scores are [uint8] scalars, so the decoder's key [-p[2]] is negation
    modulo 256, which turns the lowest score 0 into the lowest key 0.
    This holds whether or not the scores are pairwise distinct. *)
Theorem distinct_scores_orders_differ :
  forall imread_gray edge_norm img message threshold out,
    encode_ai imread_gray edge_norm (Readable img) message threshold
    = Ok out ->
    let m := enc_map imread_gray edge_norm img in
    let cs := candidates m (width img) (height img) threshold in
    (exists c, In c cs /\ cand_imp c = 0) ->
    (exists c, In c cs /\ 0 < cand_imp c) ->
    (exists e rest, pixel_importance_enc m img threshold = e :: rest /\
                    0 < cand_imp e) /\
    (exists d rest, pixel_importance_dec m img threshold = d :: rest /\
                    cand_imp d = 0) /\
    pixel_importance_dec m img threshold
    <> pixel_importance_enc m img threshold.
Proof.
  intros imread_gray edge_norm img message threshold out _ m cs
         Hzero (c1 & Hc1 & Hpos).
  assert (Hr : Forall (fun c => 0 <= cand_imp c < 256) cs).
  { apply Forall_forall. intros c Hc. apply candidates_in in Hc.
    destruct Hc as [_ ->]. apply Z.mod_pos_bound. lia. }
  assert (He : exists e rest, pixel_importance_enc m img threshold = e :: rest
                              /\ 0 < cand_imp e).
  { unfold pixel_importance_enc. fold cs.
    destruct (sort_enc cs) as [| e rest] eqn:Hs.
    - exfalso. destruct (sort_enc_spec cs) as [Hperm _]. rewrite Hs in Hperm.
      apply Permutation_sym, Permutation_nil in Hperm.
      rewrite Hperm in Hc1. contradiction.
    - exists e, rest. split; [reflexivity |].
      pose proof (sort_enc_head_max cs e rest Hs c1 Hc1). lia. }
  assert (Hd : exists d rest, pixel_importance_dec m img threshold = d :: rest
                              /\ cand_imp d = 0).
  { unfold pixel_importance_dec. fold cs.
    destruct (sort_dec cs) as [| d rest] eqn:Hs.
    - exfalso. destruct (sort_dec_spec cs) as [Hperm _]. rewrite Hs in Hperm.
      apply Permutation_sym, Permutation_nil in Hperm.
      rewrite Hperm in Hc1. contradiction.
    - exists d, rest. split; [reflexivity |].
      exact (sort_dec_head_zero cs d rest Hr Hzero Hs). }
  split; [exact He | split; [exact Hd |]].
  destruct He as (e & rest_e & He & Hpe).
  destruct Hd as (d & rest_d & Hd & Hd0).
  rewrite He, Hd. intros Heq. inversion Heq; subst. lia.
Qed.

(** The failing input: a 64x1 image whose scores are the column indices
    0..63, pairwise distinct, at threshold 0, with the empty message. *)
Lemma distinct_scores_orders_differ_witness :
  exists out,
    encode_ai luma column_edges (Readable (flat_image 64 1 (10, 20, 30))) [] 0
    = Ok out /\
    NoDup (map cand_imp
             (candidates
                (enc_map luma column_edges (flat_image 64 1 (10, 20, 30)))
                64 1 0)) /\
    pixel_importance_dec
      (enc_map luma column_edges (flat_image 64 1 (10, 20, 30)))
      (flat_image 64 1 (10, 20, 30)) 0
    <> pixel_importance_enc
         (enc_map luma column_edges (flat_image 64 1 (10, 20, 30)))
         (flat_image 64 1 (10, 20, 30)) 0.
Proof.
  destruct (encode_ai luma column_edges
              (Readable (flat_image 64 1 (10, 20, 30))) [] 0)
    as [out | e] eqn:E.
  - exists out. split; [reflexivity |]. split.
    + assert (Hs : map cand_imp
                     (candidates
                        (enc_map luma column_edges
                                 (flat_image 64 1 (10, 20, 30))) 64 1 0)
                   = map Z.of_nat (seq 0 64))
        by reflexivity.
      rewrite Hs. apply NoDup_map_NoDup_ForallPairs; [| apply seq_NoDup].
      intros a b _ _ H. lia.
    + apply (distinct_scores_orders_differ luma column_edges
               (flat_image 64 1 (10, 20, 30)) [] 0 out E).
      * exists (0%nat, 0%nat, 0). split; [vm_compute; now left | reflexivity].
      * exists (1%nat, 0%nat, 1).
        split; [vm_compute; right; now left | reflexivity].
  - vm_compute in E. discriminate E.
Defined.

(** ** Where the extraction loops stop *)

Ltac nat_mod := zify; Z.div_mod_to_equations; lia.

Lemma last_n_app {A} (a b : list A) : last_n (length b) (a ++ b) = b.
Proof.
  unfold last_n. rewrite length_app.
  replace (length a + length b - length b)%nat with (length a) by lia.
  rewrite skipn_app, skipn_all, Nat.sub_diag. reflexivity.
Qed.

Lemma drop_last_n_app {A} (a b : list A) :
  drop_last_n (length b) (a ++ b) = a.
Proof.
  unfold drop_last_n. rewrite length_app.
  replace (length a + length b - length b)%nat with (length a) by lia.
  rewrite firstn_app, firstn_all, Nat.sub_diag. simpl. apply app_nil_r.
Qed.

Lemma scan_ai_app (bits1 bits2 : list bool) :
  forall binary,
    never_terminated (binary ++ bits1) ->
    scan_ai (bits1 ++ bits2) binary = scan_ai bits2 (binary ++ bits1).
Proof.
  induction bits1 as [| bit bits1 IH]; intros binary Hnt.
  - simpl. now rewrite app_nil_r.
  - change ((bit :: bits1) ++ bits2) with (bit :: (bits1 ++ bits2)).
    rewrite scan_ai_cons.
    replace (binary ++ bit :: bits1) with ((binary ++ [bit]) ++ bits1) in *
      by now rewrite <- app_assoc.
    destruct (_ && _) eqn:Hstop.
    + apply andb_true_iff in Hstop. destruct Hstop as [Hlen Hterm].
      apply Nat.leb_le in Hlen. apply bits_eqb_eq in Hterm.
      exfalso. apply (Hnt (length (binary ++ [bit]) - 64)%nat).
      rewrite last_n_window by exact Hlen. exact Hterm.
    + now apply IH.
Qed.

(** The guided extraction stops at the first run of 64 ones and returns
    what precedes it. *)
Lemma scan_ai_stops_at_ones (payload rest : list bool) :
  never_terminated (payload ++ repeat true 63) ->
  scan_ai (payload ++ repeat true 64 ++ rest) [] = payload.
Proof.
  intros Hnt.
  change (repeat true 64) with (repeat true 63 ++ [true]).
  replace (payload ++ (repeat true 63 ++ [true]) ++ rest)
    with ((payload ++ repeat true 63) ++ true :: rest)
    by (now rewrite <- !app_assoc).
  rewrite scan_ai_app by exact Hnt.
  rewrite scan_ai_cons. cbn [app].
  replace ((payload ++ repeat true 63) ++ [true])
    with (payload ++ repeat true 64)
    by (change (repeat true 64) with (repeat true 63 ++ [true]);
        now rewrite app_assoc).
  assert (Hlast : last_n 64 (payload ++ repeat true 64) = repeat true 64)
    by exact (last_n_app payload (repeat true 64)).
  assert (Hdrop : drop_last_n 64 (payload ++ repeat true 64) = payload)
    by exact (drop_last_n_app payload (repeat true 64)).
  rewrite Hlast, Hdrop.
  replace (64 <=? length (payload ++ repeat true 64))%nat with true.
  - reflexivity.
  - symmetry. apply Nat.leb_le. rewrite length_app, repeat_length. lia.
Qed.

Lemma extract_raster_scan per_pixel terminator img seqn :
  forall binary,
    extract_raster per_pixel terminator img seqn binary
    = scan_raster terminator
        (map (fun xy => per_pixel (px img (fst xy) (snd xy))) seqn) binary.
Proof.
  induction seqn as [| [x y] seqn IH]; intros binary; [reflexivity |].
  cbn [extract_raster map scan_raster fst snd]. now rewrite IH.
Qed.

Lemma scan_raster_cons terminator chunk chunks binary :
  scan_raster terminator (chunk :: chunks) binary
  = if (length (binary ++ chunk) mod 8 =? 0)%nat
       && (8 <=? length (binary ++ chunk))%nat
       && bits_eqb (last_n 8 (binary ++ chunk)) terminator
    then drop_last_n 8 (binary ++ chunk)
    else scan_raster terminator chunks (binary ++ chunk).
Proof. reflexivity. Qed.

(** The loop goes on over [chunks] as long as no length that is a
    positive multiple of 8 ends in the terminator. *)
Lemma scan_raster_no_stop terminator (chunks more : list (list bool)) :
  forall binary,
    (forall k, (0 < k <= length chunks)%nat ->
       (length (binary ++ concat (firstn k chunks)) mod 8 = 0)%nat ->
       last_n 8 (binary ++ concat (firstn k chunks)) <> terminator) ->
    scan_raster terminator (chunks ++ more) binary
    = scan_raster terminator more (binary ++ concat chunks).
Proof.
  induction chunks as [| chunk chunks IH]; intros binary H.
  - simpl. now rewrite app_nil_r.
  - change ((chunk :: chunks) ++ more) with (chunk :: (chunks ++ more)).
    rewrite scan_raster_cons.
    destruct (_ && _) eqn:Hstop.
    + apply andb_true_iff in Hstop. destruct Hstop as [Hstop Hterm].
      apply andb_true_iff in Hstop. destruct Hstop as [Hmod _].
      apply Nat.eqb_eq in Hmod. apply bits_eqb_eq in Hterm.
      exfalso. apply (H 1%nat); simpl; rewrite ?app_nil_r; auto. lia.
    + rewrite IH.
      * simpl. now rewrite app_assoc.
      * intros k Hk. specialize (H (S k)). simpl in H.
        rewrite app_assoc in H. apply H. lia.
Qed.

Ltac explode l H :=
  repeat (destruct l as [| ? l]; [simpl in H; discriminate H |]);
  destruct l; [| simpl in H; discriminate H].

Lemma concat_singles (bits : list bool) : concat (singles bits) = bits.
Proof.
  induction bits as [| b bits IH]; simpl; [reflexivity | now rewrite IH].
Qed.

Lemma length_singles (bits : list bool) :
  length (singles bits) = length bits.
Proof. apply length_map. Qed.

Lemma firstn_singles (k : nat) (bits : list bool) :
  firstn k (singles bits) = singles (firstn k bits).
Proof. apply firstn_map. Qed.

Lemma singles_app (a b : list bool) :
  singles (a ++ b) = singles a ++ singles b.
Proof. apply map_app. Qed.

(** Read one bit per pixel, a byte other than the terminator is passed. *)
Lemma scan1_byte terminator (byte more binary : list bool) :
  length byte = 8%nat -> (length binary mod 8 = 0)%nat ->
  byte <> terminator ->
  scan_raster terminator (singles (byte ++ more)) binary
  = scan_raster terminator (singles more) (binary ++ byte).
Proof.
  intros Hlen Hal Hne. rewrite singles_app.
  rewrite scan_raster_no_stop.
  - now rewrite concat_singles.
  - intros k Hk. rewrite length_singles in Hk.
    rewrite firstn_singles, concat_singles.
    rewrite length_app, length_firstn. intros Hmod.
    assert (k = 8%nat) by nat_mod. subst k.
    rewrite firstn_all2 by lia. rewrite <- Hlen at 1.
    now rewrite last_n_app.
Qed.

Lemma scan1_payload terminator (payload : list (list bool)) (more : list bool) :
  Forall (fun byte => length byte = 8%nat /\ byte <> terminator) payload ->
  forall binary,
    (length binary mod 8 = 0)%nat ->
    scan_raster terminator (singles (concat payload ++ more)) binary
    = scan_raster terminator (singles more) (binary ++ concat payload).
Proof.
  induction 1 as [| byte payload [Hlen Hne] _ IH]; intros binary Hal.
  - simpl. now rewrite app_nil_r.
  - simpl concat. rewrite <- app_assoc, scan1_byte by assumption.
    rewrite IH by (rewrite length_app; nat_mod).
    now rewrite app_assoc.
Qed.

Lemma scan1_stop terminator (rest binary : list bool) :
  length terminator = 8%nat -> (length binary mod 8 = 0)%nat ->
  scan_raster terminator (singles (terminator ++ rest)) binary = binary.
Proof.
  intros Hlen Hal. explode terminator Hlen.
  change (singles ([b; b0; b1; b2; b3; b4; b5; b6] ++ rest))
    with (singles [b; b0; b1; b2; b3; b4; b5] ++ [b6] :: singles rest).
  rewrite scan_raster_no_stop.
  - rewrite scan_raster_cons, concat_singles, <- app_assoc. cbn [app].
    assert (Hlast : last_n 8 (binary ++ [b; b0; b1; b2; b3; b4; b5; b6])
                    = [b; b0; b1; b2; b3; b4; b5; b6])
      by exact (last_n_app binary [b; b0; b1; b2; b3; b4; b5; b6]).
    assert (Hdrop : drop_last_n 8 (binary ++ [b; b0; b1; b2; b3; b4; b5; b6])
                    = binary)
      by exact (drop_last_n_app binary [b; b0; b1; b2; b3; b4; b5; b6]).
    rewrite Hlast, Hdrop.
    replace (bits_eqb _ _) with true by (symmetry; now apply bits_eqb_eq).
    rewrite length_app. cbn [length].
    replace ((length binary + 8) mod 8 =? 0)%nat with true
      by (symmetry; apply Nat.eqb_eq; nat_mod).
    replace (8 <=? length binary + 8)%nat with true
      by (symmetry; apply Nat.leb_le; lia).
    reflexivity.
  - intros k Hk. rewrite length_singles in Hk. cbn [length] in Hk.
    rewrite firstn_singles, concat_singles, length_app, length_firstn.
    cbn [length]. intros Hmod. exfalso. nat_mod.
Qed.

(** ** Bytes as bits and back *)

Lemma to_bits8_eq (b : Z) :
  to_bits 8 b
  = [Z.testbit b 7; Z.testbit b 6; Z.testbit b 5; Z.testbit b 4;
     Z.testbit b 3; Z.testbit b 2; Z.testbit b 1; Z.testbit b 0].
Proof. reflexivity. Qed.

Lemma int2_to_bits8 (b : Z) : is_byte b -> int2 (to_bits 8 b) = b.
Proof.
  unfold is_byte. intros Hb. rewrite to_bits8_eq. unfold int2. cbn [fold_left].
  rewrite !Z.testbit_spec' by lia.
  change (2 ^ 0) with 1; change (2 ^ 1) with 2; change (2 ^ 2) with 4;
    change (2 ^ 3) with 8; change (2 ^ 4) with 16; change (2 ^ 5) with 32;
    change (2 ^ 6) with 64; change (2 ^ 7) with 128.
  Z.div_mod_to_equations. lia.
Qed.

Lemma format_08b_byte (b : Z) : is_byte b -> format_08b b = to_bits 8 b.
Proof.
  unfold is_byte. intros Hb. unfold format_08b.
  replace (Nat.max 8 (Z.to_nat (Z.log2 b + 1))) with 8%nat; [reflexivity |].
  assert (Z.log2 b < 8).
  { destruct (Z.eq_dec b 0) as [-> | Hnz]; [simpl; lia |].
    apply Z.log2_lt_pow2; lia. }
  pose proof (Z.log2_nonneg b). lia.
Qed.

Lemma flat_map_format_08b_bytes (bs : list Z) :
  Forall is_byte bs -> flat_map format_08b bs = flat_map (to_bits 8) bs.
Proof.
  induction 1 as [| b bs Hb _ IH]; simpl; [reflexivity |].
  now rewrite IH, format_08b_byte.
Qed.

Lemma bytes_of_bits_to_bits (bs : list Z) :
  Forall is_byte bs -> bytes_of_bits (flat_map (to_bits 8) bs) = bs.
Proof.
  induction 1 as [| b bs Hb _ IH]; [reflexivity |].
  cbn [flat_map]. rewrite to_bits8_eq. cbn [app bytes_of_bits].
  rewrite IH, <- to_bits8_eq. now rewrite int2_to_bits8.
Qed.

Lemma to_bits8_not_terminator (b : Z) :
  is_byte b -> b <> 254 -> to_bits 8 b <> lsb_terminator.
Proof.
  intros Hb Hne Heq. apply Hne.
  rewrite <- (int2_to_bits8 b Hb), Heq. reflexivity.
Qed.

Lemma flat_map_to_bits8_length (bs : list Z) :
  length (flat_map (to_bits 8) bs) = (8 * length bs)%nat.
Proof.
  induction bs as [| b bs IH]; [reflexivity |].
  cbn [flat_map]. rewrite length_app, IH. cbn [length].
  change (length (to_bits 8 b)) with 8%nat. lia.
Qed.

(** Read one bit per pixel, the bytes of a payload free of the byte 0xFE
    are passed and the extraction stops at the terminator ['11111110']
    that follows them. *)
Lemma scan1_lsb_frame (payload : list Z) (rest : list bool) :
  Forall (fun b => is_byte b /\ b <> 254) payload ->
  scan_raster lsb_terminator
    (singles (flat_map (to_bits 8) payload ++ lsb_terminator ++ rest)) []
  = flat_map (to_bits 8) payload.
Proof.
  intros Hp. rewrite flat_map_concat_map.
  rewrite scan1_payload; [| | reflexivity].
  - rewrite <- flat_map_concat_map. cbn [app].
    apply scan1_stop; [reflexivity |].
    rewrite flat_map_to_bits8_length. nat_mod.
  - apply Forall_map. eapply Forall_impl; [| exact Hp].
    intros b [Hb Hne]. split; [reflexivity |].
    now apply to_bits8_not_terminator.
Qed.

(** ** Three bits per pixel *)

Lemma triples_app (n : nat) :
  forall g more,
    length g = (3 * n)%nat -> triples (g ++ more) = triples g ++ triples more.
Proof.
  induction n as [| n IH]; intros g more Hlen.
  - destruct g; [reflexivity | discriminate Hlen].
  - destruct g as [| r [| gr [| b g]]]; try (simpl in Hlen; lia).
    cbn [app triples]. rewrite IH by (simpl in Hlen; lia). reflexivity.
Qed.

Lemma concat_triples (n : nat) :
  forall g, length g = (3 * n)%nat -> concat (triples g) = g.
Proof.
  induction n as [| n IH]; intros g Hlen.
  - destruct g; [reflexivity | discriminate Hlen].
  - destruct g as [| r [| gr [| b g]]]; try (simpl in Hlen; lia).
    cbn [triples concat app]. rewrite IH by (simpl in Hlen; lia). reflexivity.
Qed.

Lemma length_triples (n : nat) :
  forall g, length g = (3 * n)%nat -> length (triples g) = n.
Proof.
  induction n as [| n IH]; intros g Hlen.
  - destruct g; [reflexivity | discriminate Hlen].
  - destruct g as [| r [| gr [| b g]]]; try (simpl in Hlen; lia).
    cbn [triples length]. rewrite IH by (simpl in Hlen; lia). reflexivity.
Qed.

Lemma firstn_triples (k : nat) :
  forall g, firstn k (triples g) = triples (firstn (3 * k) g).
Proof.
  induction k as [| k IH]; intros g; [reflexivity |].
  replace (3 * S k)%nat with (S (S (S (3 * k)))) by lia.
  destruct g as [| r [| gr [| b g]]]; try reflexivity.
  cbn [triples firstn]. now rewrite IH.
Qed.

Lemma concat_firstn_triples (k n : nat) (g : list bool) :
  length g = (3 * n)%nat -> (k <= n)%nat ->
  concat (firstn k (triples g)) = firstn (3 * k) g.
Proof.
  intros Hlen Hk. rewrite firstn_triples.
  apply (concat_triples k). rewrite length_firstn. lia.
Qed.

(** Read three bits per pixel, eight pixels form three bytes and only the
    third is compared with the terminator. *)
Lemma scan3_group terminator (g more binary : list bool) :
  length g = 24%nat -> (length binary mod 8 = 0)%nat ->
  skipn 16 g <> terminator ->
  scan_raster terminator (triples (g ++ more)) binary
  = scan_raster terminator (triples more) (binary ++ g).
Proof.
  intros Hlen Hal Hne. rewrite (triples_app 8) by exact Hlen.
  rewrite scan_raster_no_stop.
  - now rewrite (concat_triples 8).
  - intros k Hk. rewrite (length_triples 8) in Hk by exact Hlen.
    rewrite (concat_firstn_triples k 8) by (assumption || lia).
    rewrite length_app, length_firstn. intros Hmod.
    assert (k = 8%nat) by nat_mod. subst k.
    rewrite firstn_all2 by lia.
    rewrite <- (firstn_skipn 16 g) at 1. rewrite app_assoc.
    assert (Hs : length (skipn 16 g) = 8%nat) by (rewrite length_skipn; lia).
    rewrite <- Hs at 1. now rewrite last_n_app.
Qed.

Lemma scan3_groups terminator (groups : list (list bool)) (more : list bool) :
  Forall (fun g => length g = 24%nat /\ skipn 16 g <> terminator) groups ->
  forall binary,
    (length binary mod 8 = 0)%nat ->
    scan_raster terminator (triples (concat groups ++ more)) binary
    = scan_raster terminator (triples more) (binary ++ concat groups).
Proof.
  induction 1 as [| g groups [Hlen Hne] _ IH]; intros binary Hal.
  - simpl. now rewrite app_nil_r.
  - simpl concat. rewrite <- app_assoc, scan3_group by assumption.
    rewrite IH by (rewrite length_app; nat_mod).
    now rewrite app_assoc.
Qed.

Lemma scan3_stop terminator (b01 rest binary : list bool) :
  length b01 = 16%nat -> length terminator = 8%nat ->
  (length binary mod 8 = 0)%nat ->
  scan_raster terminator (triples (b01 ++ terminator ++ rest)) binary
  = binary ++ b01.
Proof.
  intros H01 Ht Hal. rewrite app_assoc.
  set (g := b01 ++ terminator).
  assert (Hg : length g = 24%nat) by (unfold g; rewrite length_app; lia).
  rewrite (triples_app 8) by exact Hg.
  rewrite <- (firstn_skipn 21 g) at 1.
  rewrite (triples_app 7) by (rewrite length_firstn; lia).
  assert (Hlast : triples (skipn 21 g) = [skipn 21 g]).
  { assert (Hl : length (skipn 21 g) = 3%nat) by (rewrite length_skipn; lia).
    destruct (skipn 21 g) as [| r [| gr [| b [| ? ?]]]]; try discriminate Hl.
    reflexivity. }
  rewrite Hlast, <- app_assoc. cbn [app].
  rewrite scan_raster_no_stop.
  - rewrite scan_raster_cons.
    rewrite (concat_triples 7) by (rewrite length_firstn; lia).
    rewrite <- app_assoc, firstn_skipn. unfold g. rewrite app_assoc.
    assert (Hl : last_n 8 ((binary ++ b01) ++ terminator) = terminator)
      by (rewrite <- Ht at 1; apply last_n_app).
    assert (Hd : drop_last_n 8 ((binary ++ b01) ++ terminator) = binary ++ b01)
      by (rewrite <- Ht at 1; apply drop_last_n_app).
    rewrite Hl, Hd.
    replace (bits_eqb _ _) with true by (symmetry; now apply bits_eqb_eq).
    rewrite !length_app.
    replace ((length binary + length b01 + length terminator) mod 8 =? 0)%nat
      with true by (symmetry; apply Nat.eqb_eq; nat_mod).
    replace (8 <=? length binary + length b01 + length terminator)%nat
      with true by (symmetry; apply Nat.leb_le; lia).
    reflexivity.
  - intros k Hk.
    rewrite (length_triples 7) in Hk by (rewrite length_firstn; lia).
    rewrite (concat_firstn_triples k 7)
      by (rewrite ?length_firstn; lia).
    rewrite length_app, !length_firstn. intros Hmod. exfalso. nat_mod.
Qed.

(** Read three bits per pixel, the extraction stops at the first byte
    ['00000000'] that ends a group of eight pixels. *)
Lemma scan3_standard_frame (groups : list (list bool)) (b01 rest : list bool) :
  Forall (fun g => length g = 24%nat /\ skipn 16 g <> repeat false 8) groups ->
  length b01 = 16%nat ->
  scan_raster standard_terminator
    (triples (concat groups ++ b01 ++ standard_terminator ++ rest)) []
  = concat groups ++ b01.
Proof.
  intros Hg H01. rewrite scan3_groups; [| exact Hg | reflexivity].
  cbn [app]. apply scan3_stop; [exact H01 | reflexivity |].
  clear - Hg. induction Hg as [| g groups [Hlen _] _ IH]; [reflexivity |].
  simpl concat. rewrite length_app. nat_mod.
Qed.

(** ** The decoders as scans of the bits an image holds *)

Lemma ai_bits_scan (m : importance) (img : image) (threshold : Z) :
  ai_bits m img threshold
  = scan_ai (candidate_bits img (pixel_importance_dec m img threshold)) [].
Proof. unfold ai_bits. apply extract_ai_scan. Qed.

Lemma decode_lsb_scan (img : image) :
  decode_lsb (Readable img)
  = Ok (bytes_of_bits
          (scan_raster lsb_terminator (singles (raster_bits1 img)) [])).
Proof.
  unfold decode_lsb. simpl. rewrite extract_raster_scan.
  unfold raster_bits1, singles. now rewrite map_map.
Qed.

Lemma triples_rgb_bits (img : image) (seqn : list (nat * nat)) :
  map (fun xy => rgb_bits (px img (fst xy) (snd xy))) seqn
  = triples (flat_map (fun xy => rgb_bits (px img (fst xy) (snd xy))) seqn).
Proof.
  induction seqn as [| xy seqn IH]; [reflexivity |].
  cbn [map flat_map]. unfold rgb_bits at 3. cbn [app triples].
  now rewrite <- IH.
Qed.

Lemma decode_standard_lsb_scan (img : image) :
  decode_standard_lsb (Readable img)
  = Ok (bytes_of_bits
          (scan_raster standard_terminator (triples (raster_bits3 img)) [])).
Proof.
  unfold decode_standard_lsb. simpl. rewrite extract_raster_scan.
  unfold raster_bits3. now rewrite triples_rgb_bits.
Qed.

Lemma never_terminated_windows (bits : list bool) :
  (forall i, (i + 64 <= length bits)%nat ->
     firstn 64 (skipn i bits) <> repeat true 64) ->
  never_terminated bits.
Proof.
  intros H i Hi. apply (H i); [| exact Hi].
  apply (f_equal (@length bool)) in Hi.
  rewrite length_firstn, length_skipn, repeat_length in Hi. lia.
Qed.

(** C2, amended.  The importance-guided decoder scans the candidate bits
    for 64 ones and returns what precedes their first occurrence.  The
    uniform single-channel decoder scans the red LSBs for the byte
    ['11111110'], the terminator both uniform encoders append, and
    returns the bytes before it.  The uniform multi-channel decoder scans
    red, green and blue LSBs for the byte ['00000000'], compared after
    every eighth pixel. *)
Theorem terminator_patterns :
  (ai_decoder_terminator = repeat true 64 /\
   (forall m img threshold,
       ai_bits m img threshold
       = scan_ai (candidate_bits img (pixel_importance_dec m img threshold))
                 []) /\
   (forall payload rest,
       never_terminated (payload ++ repeat true 63) ->
       scan_ai (payload ++ repeat true 64 ++ rest) [] = payload))
  /\
  ((forall message,
       lsb_frame message
       = flat_map format_08b message
         ++ [true; true; true; true; true; true; true; false]) /\
   (forall img,
       decode_lsb (Readable img)
       = Ok (bytes_of_bits
               (scan_raster lsb_terminator (singles (raster_bits1 img)) [])))
   /\
   (forall payload rest,
       Forall (fun b => is_byte b /\ b <> 254) payload ->
       scan_raster lsb_terminator
         (singles (flat_map (to_bits 8) payload
                   ++ [true; true; true; true; true; true; true; false]
                   ++ rest)) []
       = flat_map (to_bits 8) payload))
  /\
  ((forall img,
       decode_standard_lsb (Readable img)
       = Ok (bytes_of_bits
               (scan_raster standard_terminator
                            (triples (raster_bits3 img)) []))) /\
   (forall groups b01 rest,
       Forall (fun g => length g = 24%nat /\ skipn 16 g <> repeat false 8)
              groups ->
       length b01 = 16%nat ->
       scan_raster standard_terminator
         (triples (concat groups ++ b01 ++ repeat false 8 ++ rest)) []
       = concat groups ++ b01)).
Proof.
  repeat split.
  - exact ai_bits_scan.
  - exact scan_ai_stops_at_ones.
  - exact decode_lsb_scan.
  - exact scan1_lsb_frame.
  - exact decode_standard_lsb_scan.
  - exact scan3_standard_frame.
Qed.

Lemma terminator_patterns_witness :
  scan_ai ([false; true; false] ++ repeat true 64 ++ [false; true]) []
  = [false; true; false]
  /\
  scan_raster lsb_terminator
    (singles (flat_map (to_bits 8) [104; 105]
              ++ [true; true; true; true; true; true; true; false]
              ++ [true; false])) []
  = flat_map (to_bits 8) [104; 105]
  /\
  scan_raster standard_terminator
    (triples (concat [repeat true 24] ++ repeat true 16
              ++ repeat false 8 ++ [true; true; true])) []
  = concat [repeat true 24] ++ repeat true 16.
Proof.
  destruct terminator_patterns as ((_ & _ & Hai) & (_ & _ & Hlsb) & (_ & Hstd)).
  split; [| split].
  - apply Hai. apply never_terminated_windows. intros i Hi.
    change (length ([false; true; false] ++ repeat true 63)) with 66%nat in Hi.
    destruct i as [| [| [| i]]]; [| | | lia]; vm_compute; discriminate.
  - apply Hlsb. repeat constructor; unfold is_byte; lia.
  - apply Hstd; [| reflexivity].
    repeat constructor. vm_compute. discriminate.
Defined.

(** C2 as stated fails: the literal [encode_ai] appends is 63 ones
    followed by a zero, so every framed bit string ends in a zero bit; and
    [decode_lsb] does not stop at a byte of zeros, it reads the sixteen
    zero bits of this image as two characters. *)
Lemma terminators_not_as_stated :
  (forall message_bytes, last (ai_frame message_bytes) true = false) /\
  decode_lsb (Readable (flat_image 8 2 (10, 20, 30))) = Ok [0; 0] /\
  ~ (ai_encoder_terminator = repeat true 64 /\
     ai_decoder_terminator = repeat true 64 /\
     lsb_terminator = repeat false 8 /\
     standard_terminator = repeat false 8).
Proof.
  split; [| split].
  - intros bs. unfold ai_frame. change ai_encoder_terminator
      with (repeat true 63 ++ [false]).
    rewrite app_assoc. apply last_last.
  - reflexivity.
  - intros (H & _). discriminate H.
Qed.

(** ** The importance maps of encoder and decoder *)

Lemma clear_red_lsb_same (p q : pixel) :
  green p = green q -> blue p = blue q ->
  (forall i, 0 < i -> Z.testbit (red p) i = Z.testbit (red q) i) ->
  clear_red_lsb p = clear_red_lsb q.
Proof.
  destruct p as [[r g] b], q as [[r' g'] b']. unfold green, blue, red.
  simpl. intros Hg Hb Hr. subst g' b'. f_equal. f_equal.
  apply Z.bits_inj'. intros n Hn. rewrite !Z.land_spec.
  destruct (Z.eq_dec n 0) as [-> | Hnz].
  - change (Z.testbit 254 0) with false. now rewrite !andb_false_r.
  - now rewrite Hr by lia.
Qed.

Lemma gray_rows_cleared (gray : pixel -> Z) (img out : image)
  (touched : list (nat * nat)) :
  red_lsb_only img out touched ->
  gray_rows (fun p => gray (clear_red_lsb p)) out
  = gray_rows (fun p => gray (clear_red_lsb p)) img.
Proof.
  intros (Hw & Hh & H). unfold gray_rows, rows. rewrite Hw, Hh.
  rewrite !map_map. apply map_ext. intros y.
  rewrite !map_map. apply map_ext. intros x.
  f_equal. destruct (H x y) as (Hg & Hb & Hr & _).
  now apply clear_red_lsb_same.
Qed.

(** The decoder's map does not depend on the bits written: it is the map
    of the image with every red LSB cleared. *)
Lemma dec_map_payload_independent bgr2gray edge_norm img out touched :
  red_lsb_only img out touched ->
  forall y x,
    dec_map bgr2gray edge_norm out y x = dec_map bgr2gray edge_norm img y x.
Proof.
  intros H y x. unfold dec_map. now rewrite (gray_rows_cleared _ _ _ _ H).
Qed.

(** It is the encoder's map when clearing the red LSB leaves the gray
    value of every original pixel as the encoder computed it. *)
Lemma maps_agree_when_clearing_is_neutral
  imread_gray bgr2gray edge_norm img out touched :
  red_lsb_only img out touched ->
  (forall x y, bgr2gray (clear_red_lsb (px img x y)) = imread_gray (px img x y)) ->
  forall y x,
    dec_map bgr2gray edge_norm out y x = enc_map imread_gray edge_norm img y x.
Proof.
  intros H Hgray y x.
  rewrite (dec_map_payload_independent _ _ _ _ _ H).
  unfold dec_map, enc_map, gray_rows, rows. do 2 f_equal.
  rewrite !map_map. apply map_ext. intros y'.
  rewrite !map_map. apply map_ext. intros x'. apply Hgray.
Qed.

Lemma encode_ai_red_lsb_only imread_gray edge_norm img message threshold out :
  encode_ai imread_gray edge_norm (Readable img) message threshold = Ok out ->
  exists touched, red_lsb_only img out touched.
Proof.
  intros H. apply encode_ai_ok_inv in H.
  destruct H as (img' & m & bytes & Himg & _ & _ & _ & _ & ->).
  inversion Himg; subst img'. eexists. apply write_bits_red_lsb_only.
Qed.

(** The grayscale image of an image whose pixels all convert to [v]. *)
Lemma gray_rows_flat (gray : pixel -> Z) (img : image) (v : Z) :
  (forall x y, (x < width img)%nat -> (y < height img)%nat ->
               gray (px img x y) = v) ->
  gray_rows gray img = repeat (repeat v (width img)) (height img).
Proof.
  intros H. unfold gray_rows, rows. rewrite map_map.
  assert (Hrow : forall y, (y < height img)%nat ->
            map gray (map (fun x => px img x y) (seq 0 (width img)))
            = repeat v (width img)).
  { intros y Hy. rewrite map_map.
    rewrite (map_ext_in _ (fun _ => v)).
    - rewrite <- (length_seq (width img) 0) at 2. apply map_const.
    - intros x Hx. apply in_seq in Hx. apply H; lia. }
  rewrite (map_ext_in _ (fun _ => repeat v (width img))).
  - rewrite <- (length_seq (height img) 0) at 2. apply map_const.
  - intros y Hy. apply in_seq in Hy. apply Hrow. lia.
Qed.

Lemma flat_gray_repeat (v : Z) (w h : nat) :
  flat_gray (repeat (repeat v w) h) = true.
Proof.
  unfold flat_gray. apply forallb_forall. intros row Hrow.
  destruct h as [| h]; [contradiction |].
  apply repeat_spec in Hrow. subst row.
  apply forallb_forall. intros z Hz.
  destruct w as [| w]; [contradiction |].
  apply repeat_spec in Hz. subst z. simpl. apply Z.eqb_refl.
Qed.

(** C5 on every image whose pixels differ in the red LSB alone.  The
    decoder clears the red LSB of every pixel before it converts to gray,
    so whatever [encode_ai] wrote, its map of the saved image is the
    response of the edge filter to a flat grayscale image.  Where the
    filter answers that flat image with zeros, the decoder's score is 0
    everywhere, and the two maps differ wherever the encoder's score is
    not 0: the encoder computed its map from the unmodified image, in
    which the grayscale values of the pixels can differ. *)
Theorem decoder_map_differs_from_encoder_map :
  forall imread_gray bgr2gray edge_norm img message threshold out c,
    (forall x y, (x < width img)%nat -> (y < height img)%nat ->
                 clear_red_lsb (px img x y) = c) ->
    encode_ai imread_gray edge_norm (Readable img) message threshold
    = Ok out ->
    let flat := repeat (repeat (bgr2gray c) (width img)) (height img) in
    (forall y x,
        dec_map bgr2gray edge_norm out y x = edge_norm flat y x mod 256) /\
    ((forall y x, edge_norm flat y x mod 256 = 0) ->
     forall y x,
       dec_map bgr2gray edge_norm out y x = 0 /\
       (enc_map imread_gray edge_norm img y x <> 0 ->
        dec_map bgr2gray edge_norm out y x
        <> enc_map imread_gray edge_norm img y x)).
Proof.
  intros imread_gray bgr2gray edge_norm img message threshold out c
         Hc Henc flat.
  assert (Hdec : forall y x,
             dec_map bgr2gray edge_norm out y x = edge_norm flat y x mod 256).
  { intros y x.
    apply encode_ai_red_lsb_only in Henc. destruct Henc as [touched Hout].
    rewrite (dec_map_payload_independent _ _ _ _ _ Hout).
    unfold dec_map.
    rewrite (gray_rows_flat (fun p => bgr2gray (clear_red_lsb p)) img
                            (bgr2gray c)); [reflexivity |].
    intros x' y' Hx Hy. now rewrite Hc. }
  split; [exact Hdec |].
  intros Hflat y x. rewrite Hdec, Hflat. split; [reflexivity |].
  intros Hne H. apply Hne. now rewrite <- H.
Qed.

(** The failing input: [dented_image], with a conversion that tells its
    two colours apart and an edge filter that answers any image that is
    not flat. *)
Lemma decoder_map_differs_from_encoder_map_witness :
  exists out,
    encode_ai luma_floor contrast_edges (Readable dented_image) [] 0 = Ok out
    /\ dec_map luma contrast_edges out 0%nat 0%nat = 0
    /\ enc_map luma_floor contrast_edges dented_image 0%nat 0%nat = 255
    /\ dec_map luma contrast_edges out 0%nat 0%nat
       <> enc_map luma_floor contrast_edges dented_image 0%nat 0%nat.
Proof.
  destruct (encode_ai luma_floor contrast_edges (Readable dented_image) [] 0)
    as [out | e] eqn:E.
  - exists out. split; [reflexivity |].
    destruct (decoder_map_differs_from_encoder_map
                luma_floor luma contrast_edges dented_image [] 0 out
                (10, 0, 0)) as [_ H].
    + intros x y _ _. unfold dented_image. cbn [px].
      destruct ((x =? 0)%nat && (y =? 0)%nat); reflexivity.
    + exact E.
    + assert (Hflat : forall y x,
                contrast_edges
                  (repeat (repeat (luma (10, 0, 0)) (width dented_image))
                          (height dented_image)) y x mod 256 = 0).
      { intros y x. unfold contrast_edges. now rewrite flat_gray_repeat. }
      destruct (H Hflat 0%nat 0%nat) as [Hdec Hne].
      split; [exact Hdec |]. split; [reflexivity |].
      apply Hne. vm_compute. discriminate.
  - vm_compute in E. discriminate E.
Defined.

(** ** Round trip of the importance-guided codec *)

(** C1 on every image [encode_ai] saves.  [decode_ai] does not return
    the message: called on the saved image at the same threshold it
    raises [UnboundLocalError], as it does on every call, because line 20
    reads a name the module never binds and the handler reads [logger]
    before any assignment to it. *)
Theorem roundtrip_raises :
  forall imread_gray bgr2gray edge_norm img message threshold out,
    encode_ai imread_gray edge_norm (Readable img) message threshold
    = Ok out ->
    decode_ai bgr2gray edge_norm (Readable out) threshold
    = Err (UnboundLocalError "logger").
Proof.
  intros imread_gray bgr2gray edge_norm img message threshold out _.
  apply decode_ai_unbound_logger.
Qed.

Lemma roundtrip_raises_witness :
  exists out,
    encode_ai luma no_edges (Readable (flat_image 100 1 (10, 20, 30)))
              [104; 105] 0 = Ok out /\
    decode_ai luma no_edges (Readable out) 0
    = Err (UnboundLocalError "logger").
Proof.
  destruct (encode_ai luma no_edges (Readable (flat_image 100 1 (10, 20, 30)))
                      [104; 105] 0) as [out | e] eqn:E.
  - exists out. split; [reflexivity |].
    exact (roundtrip_raises luma luma no_edges
             (flat_image 100 1 (10, 20, 30)) [104; 105] 0 out E).
  - vm_compute in E. discriminate E.
Defined.

(** ** How much text the guided decoder can return *)

Lemma utf8_decode_length (bs : list Z) :
  forall s, utf8_decode bs = Some s -> (length s <= length bs)%nat.
Proof.
  assert (H : forall n bs, (length bs <= n)%nat ->
              forall s, utf8_decode bs = Some s ->
                        (length s <= length bs)%nat).
  { clear bs. induction n as [| n IH]; intros bs Hn s Hs.
    - destruct bs; [| simpl in Hn; lia]. inversion Hs. simpl. lia.
    - destruct bs as [| b0 r0]; [inversion Hs; simpl; lia |].
      simpl in Hn. cbn [utf8_decode] in Hs.
      repeat match type of Hs with
             | (if ?c then _ else _) = _ => destruct c
             | match ?l with [] => _ | _ :: _ => _ end = _ =>
                 destruct l; cbn [length] in *
             | None = Some _ => discriminate Hs
             | option_map _ (utf8_decode ?r) = Some _ =>
                 let E := fresh "E" in
                 destruct (utf8_decode r) as [s' |] eqn:E;
                 [ apply IH in E; [| lia]; inversion Hs; subst s;
                   cbn [length]; lia
                 | discriminate Hs ]
             end. }
  intros s. apply (H (length bs)). lia.
Qed.

Lemma text_of_bytes_length (byte_array : list Z) :
  (length (text_of_bytes byte_array) <= length byte_array)%nat.
Proof.
  unfold text_of_bytes.
  destruct (utf8_decode byte_array) as [s |] eqn:E; [| lia].
  now apply utf8_decode_length.
Qed.

Lemma drop_last_n_length {A} (k : nat) (l : list A) :
  (length (drop_last_n k l) <= length l)%nat.
Proof. unfold drop_last_n. rewrite length_firstn. lia. Qed.

Lemma scan_ai_length (bits : list bool) :
  forall binary,
    (length (scan_ai bits binary) <= length binary + length bits)%nat.
Proof.
  induction bits as [| bit bits IH]; intros binary.
  - simpl. lia.
  - rewrite scan_ai_cons. destruct (_ && _).
    + pose proof (drop_last_n_length 64 (binary ++ [bit])) as H.
      rewrite length_app in H. simpl in *. lia.
    + specialize (IH (binary ++ [bit])). rewrite length_app in IH.
      simpl in *. lia.
Qed.

Lemma ai_bits_length (m : importance) (img : image) (threshold : Z) :
  (length (ai_bits m img threshold) <= width img * height img)%nat.
Proof.
  rewrite ai_bits_scan.
  pose proof (scan_ai_length
                (candidate_bits img (pixel_importance_dec m img threshold))
                []) as H.
  assert (Hc : length (candidate_bits img
                         (pixel_importance_dec m img threshold))
               = length (pixel_importance_dec m img threshold))
    by apply length_map.
  pose proof (pixel_importance_dec_length m img threshold).
  cbn [length] in H. lia.
Qed.

(** Lines 23-75 read one bit per candidate pixel: their text has at most
    [width * height / 8] characters. *)
Lemma decode_ai_guided_text_length bgr2gray edge_norm img threshold :
  exists s,
    decode_ai_guided bgr2gray edge_norm (Readable img) threshold = Ok s /\
    (8 * length s <= width img * height img)%nat.
Proof.
  eexists. split; [apply decode_ai_guided_readable |].
  pose proof (text_of_bytes_length
                (bytes_of_bits
                   (ai_bits (dec_map bgr2gray edge_norm img) img threshold))).
  pose proof (bytes_of_bits_length
                (ai_bits (dec_map bgr2gray edge_norm img) img threshold)).
  pose proof (ai_bits_length (dec_map bgr2gray edge_norm img) img threshold).
  lia.
Qed.

Lemma write_multi_size use_r use_g use_b (seqn : list (nat * nat)) :
  forall img bits,
    width (write_multi use_r use_g use_b img bits seqn) = width img /\
    height (write_multi use_r use_g use_b img bits seqn) = height img.
Proof.
  induction seqn as [| [x y] seqn IH]; intros img bits; [now split |].
  cbn [write_multi]. destruct bits as [| bit bits]; [now split |].
  destruct (px img x y) as [[r g] b].
  destruct (put_bit use_r r (bit :: bits)) as [r' bits1].
  destruct (put_bit use_g g bits1) as [g' bits2].
  destruct (put_bit use_b b bits2) as [b' bits3].
  apply (IH (set_px img x y (r', g', b')) bits3).
Qed.

Lemma encode_lsb_multi_channel_ok_inv f message channels out :
  encode_lsb_multi_channel f message channels = Ok out ->
  exists img,
    f = Readable img /\
    width out = width img /\ height out = height img /\
    (Z.of_nat (length message)
       <= (Z.of_nat (width img * height img) - 8) / 8
          * Z.of_nat (length channels)).
Proof.
  destruct f as [| [|] [img |]]; try discriminate.
  unfold encode_lsb_multi_channel. simpl.
  destruct (_ >? _) eqn:Hcap; [discriminate |].
  intros H. inversion H. exists img.
  split; [reflexivity |].
  split; [apply write_multi_size |]. split; [apply write_multi_size |].
  rewrite Z.gtb_ltb in Hcap. now apply Z.ltb_ge in Hcap.
Qed.

(** ** The uniform single-channel round trip *)

Lemma raster_NoDup (w h : nat) : NoDup (raster w h).
Proof.
  unfold raster.
  assert (H : forall ys, NoDup ys ->
              NoDup (flat_map (fun y : nat =>
                                 map (fun x : nat => (x, y)) (seq 0 w)) ys)).
  { induction 1 as [| y ys Hy Hys IH]; [constructor |].
    cbn [flat_map]. apply NoDup_app.
    - apply NoDup_map_NoDup_ForallPairs; [| apply seq_NoDup].
      intros a b _ _ Hab. now inversion Hab.
    - exact IH.
    - intros [x' y'] H1 H2. apply in_map_iff in H1.
      destruct H1 as (x & Hx & _). inversion Hx; subst x' y'.
      apply in_flat_map in H2. destruct H2 as (y2 & Hy2 & Hin).
      apply in_map_iff in Hin. destruct Hin as (x2 & Hx2 & _).
      inversion Hx2; subst. contradiction. }
  apply H, seq_NoDup.
Qed.

Lemma write_bits_untouched (bits : list bool) :
  forall seqn img x y,
    ~ In (x, y) seqn -> px (write_bits img bits seqn) x y = px img x y.
Proof.
  induction bits as [| bit bits IH]; intros seqn img x y Hnot.
  - now destruct seqn.
  - destruct seqn as [| [x0 y0] seqn]; [reflexivity |].
    cbn [write_bits]. destruct (px img x0 y0) as [[r g] b].
    rewrite IH by (intros H; apply Hnot; now right).
    cbn [set_px px].
    destruct ((x =? x0)%nat && (y =? y0)%nat) eqn:E; [| reflexivity].
    apply andb_true_iff in E. destruct E as [Ex Ey].
    apply Nat.eqb_eq in Ex, Ey. subst. exfalso. apply Hnot. now left.
Qed.

(** Along a sequence of distinct pixels, the red LSBs read after the
    write are the bits written, followed by the LSBs the remaining pixels
    had. *)
Lemma write_bits_read (bits : list bool) :
  forall seqn img,
    NoDup seqn -> (length bits <= length seqn)%nat ->
    map (fun xy => lsb (red (px (write_bits img bits seqn) (fst xy) (snd xy))))
        seqn
    = bits ++ map (fun xy => lsb (red (px img (fst xy) (snd xy))))
                  (skipn (length bits) seqn).
Proof.
  induction bits as [| bit bits IH]; intros seqn img Hnd Hlen.
  - now destruct seqn.
  - destruct seqn as [| [x y] seqn]; [simpl in Hlen; lia |].
    inversion Hnd as [| ? ? Hnotin Hnd']; subst.
    cbn [write_bits]. destruct (px img x y) as [[r g] b] eqn:Hp.
    cbn [map fst snd length skipn app]. f_equal.
    + rewrite write_bits_untouched by exact Hnotin.
      cbn [set_px px]. rewrite !Nat.eqb_refl. cbn [andb red fst].
      apply set_lsb_low.
    + rewrite IH by (try assumption; simpl in Hlen; lia).
      f_equal. apply map_ext_in. intros [x' y'] Hin.
      cbn [set_px px fst snd].
      destruct ((x' =? x)%nat && (y' =? y)%nat) eqn:E; [| reflexivity].
      apply andb_true_iff in E. destruct E as [Ex Ey].
      apply Nat.eqb_eq in Ex, Ey. subst.
      exfalso. apply Hnotin.
      rewrite <- (firstn_skipn (length bits) seqn).
      apply in_or_app. now right.
Qed.

Lemma write_bits_size (bits : list bool) :
  forall seqn img,
    width (write_bits img bits seqn) = width img /\
    height (write_bits img bits seqn) = height img.
Proof.
  intros seqn img.
  destruct (write_bits_red_lsb_only bits seqn img) as (Hw & Hh & _).
  now split.
Qed.

(** What [encode_lsb] writes, [decode_lsb] reads back from the image as
    saved (in a lossless format): for a message of Latin-1 characters
    other than U+00FE, the character the terminator ['11111110'] spells. *)
Lemma lsb_roundtrip (img : image) (message : text) (out : image) :
  Forall (fun c => is_byte c /\ c <> 254) message ->
  encode_lsb (Readable img) message = Ok out ->
  decode_lsb (Readable out) = Ok message.
Proof.
  intros Hmsg Henc. apply encode_lsb_ok_inv in Henc.
  destruct Henc as (img' & Himg & Hcap & ->). inversion Himg; subst img'.
  assert (Hbytes : Forall is_byte message).
  { eapply Forall_impl; [| exact Hmsg]. now intros c [Hc _]. }
  assert (Hframe : lsb_frame message
                   = flat_map (to_bits 8) message ++ lsb_terminator).
  { unfold lsb_frame. now rewrite flat_map_format_08b_bytes. }
  assert (Hfit : (length (lsb_frame message)
                  <= length (raster (width img) (height img)))%nat).
  { rewrite Hframe, length_app, flat_map_to_bits8_length, raster_length.
    change (length lsb_terminator) with 8%nat.
    rewrite Z.gtb_ltb in Hcap. apply Z.ltb_ge in Hcap.
    zify. Z.div_mod_to_equations. lia. }
  rewrite decode_lsb_scan. unfold raster_bits1.
  destruct (write_bits_size (lsb_frame message)
              (raster (width img) (height img)) img) as [-> ->].
  rewrite write_bits_read by (apply raster_NoDup || exact Hfit).
  rewrite Hframe, <- app_assoc, scan1_lsb_frame by exact Hmsg.
  now rewrite bytes_of_bits_to_bits.
Qed.

(** ** UTF-8: decoding inverts encoding *)

Lemma utf8_decode_cons (b0 : Z) (r0 : list Z) :
  utf8_decode (b0 :: r0)
  = if in_range 0 0x7F b0 then option_map (cons b0) (utf8_decode r0)
    else if in_range 0xC2 0xDF b0 then
      match r0 with
      | b1 :: r1 =>
          if is_cont b1
          then option_map (cons ((b0 - 0xC0) * 64 + (b1 - 0x80)))
                          (utf8_decode r1)
          else None
      | _ => None
      end
    else if in_range 0xE0 0xEF b0 then
      match r0 with
      | b1 :: b2 :: r2 =>
          if in_range (if b0 =? 0xE0 then 0xA0 else 0x80)
                      (if b0 =? 0xED then 0x9F else 0xBF) b1
             && is_cont b2
          then option_map
                 (cons ((b0 - 0xE0) * 4096 + (b1 - 0x80) * 64 + (b2 - 0x80)))
                 (utf8_decode r2)
          else None
      | _ => None
      end
    else if in_range 0xF0 0xF4 b0 then
      match r0 with
      | b1 :: b2 :: b3 :: r3 =>
          if in_range (if b0 =? 0xF0 then 0x90 else 0x80)
                      (if b0 =? 0xF4 then 0x8F else 0xBF) b1
             && is_cont b2 && is_cont b3
          then option_map
                 (cons ((b0 - 0xF0) * 262144 + (b1 - 0x80) * 4096
                        + (b2 - 0x80) * 64 + (b3 - 0x80)))
                 (utf8_decode r3)
          else None
      | _ => None
      end
    else None.
Proof. reflexivity. Qed.

Lemma Some_inj {A} (a b : A) : Some a = Some b -> a = b.
Proof. intros H. now inversion H. Qed.

Ltac split_eqb :=
  repeat match goal with
         | |- context [if ?x =? ?y then _ else _] =>
             let E := fresh "E" in
             destruct (x =? y) eqn:E;
             [apply Z.eqb_eq in E | apply Z.eqb_neq in E]
         end.

Ltac range_true :=
  unfold is_cont, in_range;
  repeat (apply andb_true_iff; split); apply Z.leb_le; lia.

Ltac range_false :=
  unfold is_cont, in_range; apply andb_false_iff;
  first [ left; solve [apply Z.leb_gt; lia]
        | right; solve [apply Z.leb_gt; lia] ].

Ltac head_if :=
  match goal with
  | |- (if ?b then _ else _) = _ =>
      first [ replace b with true by (symmetry; range_true)
            | replace b with false by (symmetry; range_false) ];
      cbv beta iota
  end.

(** Name a quotient and its remainder by 64. *)
Ltac split64 a q r :=
  pose proof (Z.div_mod a 64 ltac:(lia));
  pose proof (Z.mod_pos_bound a 64 ltac:(lia));
  set (q := a / 64) in *; set (r := a mod 64) in *.

Lemma utf8_decode_encode_cp (c : Z) (bs rest : list Z) :
  utf8_encode_cp c = Some bs ->
  utf8_decode (bs ++ rest) = option_map (cons c) (utf8_decode rest).
Proof.
  unfold utf8_encode_cp, is_surrogate.
  destruct (c <? 0) eqn:H0; [discriminate |].
  destruct (c <? 128) eqn:H1; [| destruct (c <? 2048) eqn:H2;
    [| destruct (c <? 65536) eqn:H3;
       [destruct ((55296 <=? c) && (c <=? 57343)) eqn:Hs; [discriminate |]
       | destruct (c <=? 1114111) eqn:H4; [| discriminate]]]];
    intros Hbs; apply Some_inj in Hbs; subst bs;
    repeat match goal with
           | H : (_ <=? _) = true |- _ => apply Z.leb_le in H
           | H : (_ <? _) = true |- _ => apply Z.ltb_lt in H
           | H : (_ <? _) = false |- _ => apply Z.ltb_ge in H
           end;
    cbn [app]; rewrite utf8_decode_cons; cbv beta iota.
  - head_if. reflexivity.
  - split64 c q1 r1. clearbody q1 r1.
    do 3 head_if. f_equal. f_equal. lia.
  - rewrite andb_false_iff, Z.leb_gt, Z.leb_gt in Hs.
    change 4096 with (64 * 64). rewrite <- Z.div_div by lia.
    split64 c q1 r1. split64 q1 q2 r2. clearbody q1 r1 q2 r2.
    do 3 head_if. split_eqb; head_if; f_equal; f_equal; lia.
  - change 262144 with (64 * 64 * 64). change 4096 with (64 * 64).
    rewrite <- !Z.div_div by lia.
    split64 c q1 r1. split64 q1 q2 r2. split64 q2 q3 r3.
    clearbody q1 r1 q2 r2 q3 r3.
    do 4 head_if. split_eqb; head_if; f_equal; f_equal; lia.
Qed.

Lemma utf8_decode_encode (s : text) :
  forall bs, utf8_encode s = Some bs -> utf8_decode bs = Some s.
Proof.
  induction s as [| c s IH]; intros bs H.
  - inversion H. reflexivity.
  - cbn [utf8_encode] in H.
    destruct (utf8_encode_cp c) as [b1 |] eqn:Hc; [| discriminate].
    destruct (utf8_encode s) as [b2 |]; [| discriminate].
    inversion H; subst bs.
    rewrite (utf8_decode_encode_cp _ _ _ Hc), (IH b2 eq_refl). reflexivity.
Qed.

(** * Further properties of the uniform codec *)

(** ** What the raster extraction returns *)

(** The extraction either keeps everything it read, or it stopped after
    some pixel, having read a positive multiple of 8 bits that end in the
    terminator, and dropped the terminator. *)
Lemma scan_raster_cases terminator (chunks : list (list bool)) :
  forall binary,
    scan_raster terminator chunks binary = binary ++ concat chunks \/
    exists read rest k,
      binary ++ concat chunks = read ++ rest /\
      (S k <= length chunks)%nat /\
      read = binary ++ concat (firstn (S k) chunks) /\
      (length read mod 8 = 0)%nat /\ (8 <= length read)%nat /\
      last_n 8 read = terminator /\
      scan_raster terminator chunks binary = drop_last_n 8 read.
Proof.
  induction chunks as [| chunk chunks IH]; intros binary.
  - left. simpl. now rewrite app_nil_r.
  - rewrite scan_raster_cons. cbn [concat].
    destruct (_ && _) eqn:Hstop.
    + right. apply andb_true_iff in Hstop. destruct Hstop as [Hstop Hterm].
      apply andb_true_iff in Hstop. destruct Hstop as [Hmod Hlen].
      apply Nat.eqb_eq in Hmod. apply Nat.leb_le in Hlen.
      apply bits_eqb_eq in Hterm.
      exists (binary ++ chunk), (concat chunks), 0%nat.
      cbn [firstn concat length]. rewrite app_nil_r.
      repeat split; auto; [now rewrite app_assoc | lia].
    + rewrite app_assoc.
      destruct (IH (binary ++ chunk))
        as [Hall | (read & rest & k & H1 & H2 & H3 & H4 & H5 & H6 & H7)].
      * now left.
      * right. exists read, rest, (S k).
        cbn [firstn concat length]. rewrite app_assoc.
        repeat split; auto. lia.
Qed.

Lemma scan_raster_length terminator chunks binary :
  (length (scan_raster terminator chunks binary)
   <= length binary + length (concat chunks))%nat.
Proof.
  destruct (scan_raster_cases terminator chunks binary)
    as [-> | (read & rest & k & Heq & _ & _ & _ & _ & _ & ->)].
  - rewrite length_app. lia.
  - pose proof (drop_last_n_length 8 read) as H.
    apply (f_equal (@length bool)) in Heq. rewrite !length_app in Heq. lia.
Qed.

Lemma raster_bits1_length (img : image) :
  length (raster_bits1 img) = (width img * height img)%nat.
Proof. unfold raster_bits1. now rewrite length_map, raster_length. Qed.

Lemma raster_bits3_length (img : image) :
  length (raster_bits3 img) = (3 * (width img * height img))%nat.
Proof.
  unfold raster_bits3. rewrite <- (raster_length (width img) (height img)).
  generalize (raster (width img) (height img)) as l.
  induction l as [| xy l IH]; [reflexivity |].
  cbn [flat_map]. rewrite length_app, IH. simpl. lia.
Qed.

(** X1.  Whatever the image, [decode_lsb] returns only characters in
    U+0000..U+00FF and at most one character per eight pixels;
    [decode_standard_lsb] returns only such characters and at most three
    characters per eight pixels. *)
Theorem raster_decoders_output_bounds :
  forall img,
    (exists s, decode_lsb (Readable img) = Ok s /\
               Forall is_byte s /\
               (8 * length s <= width img * height img)%nat) /\
    (exists s, decode_standard_lsb (Readable img) = Ok s /\
               Forall is_byte s /\
               (8 * length s <= 3 * (width img * height img))%nat).
Proof.
  intros img. split; eexists.
  - rewrite decode_lsb_scan. split; [reflexivity |].
    split; [apply bytes_of_bits_are_bytes |].
    pose proof (bytes_of_bits_length
                  (scan_raster lsb_terminator (singles (raster_bits1 img)) [])).
    pose proof (scan_raster_length lsb_terminator
                  (singles (raster_bits1 img)) []) as H1.
    rewrite concat_singles, raster_bits1_length in H1. simpl in H1. lia.
  - rewrite decode_standard_lsb_scan. split; [reflexivity |].
    split; [apply bytes_of_bits_are_bytes |].
    pose proof (bytes_of_bits_length
                  (scan_raster standard_terminator
                               (triples (raster_bits3 img)) [])).
    pose proof (scan_raster_length standard_terminator
                  (triples (raster_bits3 img)) []) as H1.
    rewrite (concat_triples (width img * height img)) in H1
      by apply raster_bits3_length.
    rewrite raster_bits3_length in H1. simpl in H1. lia.
Qed.

(** ** The uniform single-channel codec on Latin-1 messages *)

Lemma encode_lsb_readable (img : image) (message : text) :
  encode_lsb (Readable img) message
  = if Z.of_nat (length message)
       >? (Z.of_nat (width img * height img) - 8) / 8
    then Err (MessageTooLarge ((Z.of_nat (width img * height img) - 8) / 8))
    else Ok (write_bits img (lsb_frame message)
                        (raster (width img) (height img))).
Proof. reflexivity. Qed.

(** A Latin-1 message within capacity is written whole. *)
Lemma lsb_frame_fits (img : image) (message : text) :
  Forall is_byte message ->
  Z.of_nat (length message) <= (Z.of_nat (width img * height img) - 8) / 8 ->
  lsb_frame message = flat_map (to_bits 8) message ++ lsb_terminator /\
  (length (lsb_frame message)
   <= length (raster (width img) (height img)))%nat.
Proof.
  intros Hbytes Hcap.
  assert (Hframe : lsb_frame message
                   = flat_map (to_bits 8) message ++ lsb_terminator).
  { unfold lsb_frame. now rewrite flat_map_format_08b_bytes. }
  split; [exact Hframe |].
  rewrite Hframe, length_app, flat_map_to_bits8_length, raster_length.
  change (length lsb_terminator) with 8%nat.
  zify. Z.div_mod_to_equations. lia.
Qed.

(** The red LSBs of the image [encode_lsb] saves: the framed message,
    then the LSBs the remaining pixels had. *)
Lemma encode_lsb_bits (img : image) (message : text) (out : image) :
  Forall is_byte message ->
  encode_lsb (Readable img) message = Ok out ->
  raster_bits1 out
  = flat_map (to_bits 8) message ++ lsb_terminator
    ++ map (fun xy => lsb (red (px img (fst xy) (snd xy))))
           (skipn (length (lsb_frame message))
                  (raster (width img) (height img))).
Proof.
  intros Hbytes Henc. apply encode_lsb_ok_inv in Henc.
  destruct Henc as (img' & Himg & Hcap & ->). inversion Himg; subst img'.
  rewrite Z.gtb_ltb in Hcap. apply Z.ltb_ge in Hcap.
  destruct (lsb_frame_fits img message Hbytes Hcap) as [Hframe Hfit].
  unfold raster_bits1.
  destruct (write_bits_size (lsb_frame message)
              (raster (width img) (height img)) img) as [-> ->].
  rewrite write_bits_read by (apply raster_NoDup || exact Hfit).
  now rewrite Hframe at 1; rewrite <- app_assoc.
Qed.

Lemma before_fe_split (s : text) :
  Forall (fun c => c <> 254) (before_fe s) /\
  (s = before_fe s \/ exists post, s = before_fe s ++ 254 :: post).
Proof.
  induction s as [| c s [IH1 IH2]]; [split; [constructor | now left] |].
  cbn [before_fe].
  destruct (c =? 254) eqn:E; [apply Z.eqb_eq in E | apply Z.eqb_neq in E].
  - subst c. split; [constructor |]. right. now exists s.
  - split; [now constructor |].
    destruct IH2 as [IH2 | [post IH2]].
    + left. cbn [app]. now f_equal.
    + right. exists post. cbn [app]. now f_equal.
Qed.

Lemma before_fe_bytes (s : text) :
  Forall is_byte s -> Forall (fun b => is_byte b /\ b <> 254) (before_fe s).
Proof.
  induction 1 as [| c s Hc _ IH]; [constructor |].
  cbn [before_fe].
  destruct (c =? 254) eqn:E; [constructor |].
  apply Z.eqb_neq in E. constructor; [now split | exact IH].
Qed.

Lemma before_fe_id (s : text) :
  Forall (fun c => is_byte c /\ c <> 254) s -> before_fe s = s.
Proof.
  induction 1 as [| c s [_ Hc] _ IH]; [reflexivity |].
  cbn [before_fe]. apply Z.eqb_neq in Hc. now rewrite Hc, IH.
Qed.

Lemma decode_lsb_encode_lsb (img : image) (message : text) (out : image) :
  Forall is_byte message ->
  encode_lsb (Readable img) message = Ok out ->
  decode_lsb (Readable out) = Ok (before_fe message).
Proof.
  intros Hbytes Henc.
  rewrite decode_lsb_scan, (encode_lsb_bits img message out Hbytes Henc).
  pose proof (before_fe_bytes message Hbytes) as Hpre.
  destruct (before_fe_split message) as [_ [Hall | [post Hpost]]].
  - rewrite Hall at 1. rewrite scan1_lsb_frame by exact Hpre.
    rewrite bytes_of_bits_to_bits; [reflexivity |].
    eapply Forall_impl; [| exact Hpre]. now intros c [Hc _].
  - rewrite Hpost at 1. rewrite flat_map_app. cbn [flat_map].
    change (to_bits 8 254) with lsb_terminator.
    rewrite <- !app_assoc. rewrite scan1_lsb_frame by exact Hpre.
    rewrite bytes_of_bits_to_bits; [reflexivity |].
    eapply Forall_impl; [| exact Hpre]. now intros c [Hc _].
Qed.



(** X3.  For a message of characters U+0000..U+00FF, [decode_lsb] returns
    from the image [encode_lsb] saved the part of the message in front of
    its first character U+00FE, whose eight bits are the terminator. *)
Theorem decode_lsb_cuts_at_fe :
  forall img message out,
    Forall is_byte message ->
    encode_lsb (Readable img) message = Ok out ->
    decode_lsb (Readable out) = Ok (before_fe message).
Proof. exact decode_lsb_encode_lsb. Qed.

Lemma decode_lsb_cuts_at_fe_witness :
  exists out,
    encode_lsb (Readable (flat_image 8 8 (10, 20, 30))) [104; 254; 105]
    = Ok out /\
    decode_lsb (Readable out) = Ok [104].
Proof.
  destruct (encode_lsb (Readable (flat_image 8 8 (10, 20, 30)))
                       [104; 254; 105]) as [out | e] eqn:E.
  - exists out. split; [reflexivity |].
    apply (decode_lsb_cuts_at_fe (flat_image 8 8 (10, 20, 30))
                                 [104; 254; 105] out).
    + repeat constructor; unfold is_byte; lia.
    + exact E.
  - vm_compute in E. discriminate E.
Defined.

(** * Further properties of the multi-channel encoder *)

Lemma write_multi_red (seqn : list (nat * nat)) :
  forall img bits,
    write_multi true false false img bits seqn = write_bits img bits seqn.
Proof.
  induction seqn as [| [x y] seqn IH]; intros img bits.
  - now destruct bits.
  - destruct bits as [| bit bits]; [reflexivity |].
    cbn [write_multi write_bits put_bit].
    destruct (px img x y) as [[r g] b]. apply IH.
Qed.

(** X4.  With the channel list [['r']] the multi-channel encoder is the
    single-channel encoder: same capacity check, same saved image. *)
Theorem multi_channel_red_is_encode_lsb :
  forall f message,
    encode_lsb_multi_channel f message ["r"%string] = encode_lsb f message.
Proof.
  intros f message. destruct f as [| [|] [img |]]; try reflexivity.
  unfold encode_lsb_multi_channel, encode_lsb. simpl.
  rewrite Z.mul_1_r.
  destruct (_ >? _); [reflexivity |].
  change (has_channel "r" ["r"%string]) with true.
  change (has_channel "g" ["r"%string]) with false.
  change (has_channel "b" ["r"%string]) with false.
  now rewrite write_multi_red.
Qed.

Lemma put_bit_high (use : bool) (v : Z) (bits : list bool) :
  same_high_bits (fst (put_bit use v bits)) v /\
  (use = false -> fst (put_bit use v bits) = v).
Proof.
  unfold put_bit. destruct use.
  - destruct bits as [| bit rest]; cbn [fst].
    + split; [now intros i Hi | discriminate].
    + split; [intros i Hi; now apply set_lsb_high | discriminate].
  - cbn [fst]. split; [now intros i Hi | reflexivity].
Qed.

Lemma lsbs_only_refl use_r use_g use_b (img : image) :
  lsbs_only use_r use_g use_b img img.
Proof. repeat split; auto. Qed.

Lemma write_multi_lsbs_only use_r use_g use_b (seqn : list (nat * nat)) :
  forall img bits,
    lsbs_only use_r use_g use_b img
              (write_multi use_r use_g use_b img bits seqn).
Proof.
  induction seqn as [| [x y] seqn IH]; intros img bits;
    [apply lsbs_only_refl |].
  cbn [write_multi]. destruct bits as [| bit bits];
    [apply lsbs_only_refl |].
  destruct (px img x y) as [[r g] b] eqn:Hp.
  pose proof (put_bit_high use_r r (bit :: bits)) as Hr.
  destruct (put_bit use_r r (bit :: bits)) as [r' bits1].
  pose proof (put_bit_high use_g g bits1) as Hg.
  destruct (put_bit use_g g bits1) as [g' bits2].
  pose proof (put_bit_high use_b b bits2) as Hb.
  destruct (put_bit use_b b bits2) as [b' bits3].
  cbn [fst] in Hr, Hg, Hb.
  destruct Hr as [Hr1 Hr2], Hg as [Hg1 Hg2], Hb as [Hb1 Hb2].
  specialize (IH (set_px img x y (r', g', b')) bits3).
  destruct IH as (Hw & Hh & IH).
  split; [exact Hw | split; [exact Hh |]].
  intros x0 y0. destruct (IH x0 y0) as (I1 & I2 & I3 & I4 & I5 & I6).
  cbn [set_px px] in I1, I2, I3, I4, I5, I6.
  destruct ((x0 =? x)%nat && (y0 =? y)%nat) eqn:Heq.
  - apply andb_true_iff in Heq. destruct Heq as [Hx Hy].
    apply Nat.eqb_eq in Hx, Hy. subst x0 y0. rewrite Hp.
    unfold red, green, blue in *. cbn [fst snd] in *.
    repeat split.
    + intros i Hi. now rewrite I1, Hr1.
    + intros i Hi. now rewrite I2, Hg1.
    + intros i Hi. now rewrite I3, Hb1.
    + intros H. now rewrite I4, Hr2.
    + intros H. now rewrite I5, Hg2.
    + intros H. now rewrite I6, Hb2.
  - repeat split; assumption.
Qed.

(** X5.  The image [encode_lsb_multi_channel] saves has the size of the
    input; every red, green and blue value differs from the original at
    most in its least-significant bit, and a channel whose letter is not
    in [channels] keeps every value (so a list without 'r', 'g' or 'b'
    saves the pixels unchanged). *)
Theorem multi_channel_encode_frame :
  forall f message channels out,
    encode_lsb_multi_channel f message channels = Ok out ->
    exists img,
      open_image f = Ok img /\
      lsbs_only (has_channel "r" channels) (has_channel "g" channels)
                (has_channel "b" channels) img out.
Proof.
  intros f message channels out H.
  destruct f as [| [|] [img |]]; try discriminate.
  unfold encode_lsb_multi_channel in H. simpl in H.
  destruct (_ >? _); [discriminate |].
  inversion H. exists img. split; [reflexivity |].
  apply write_multi_lsbs_only.
Qed.

Lemma multi_channel_encode_frame_witness :
  exists out img,
    encode_lsb_multi_channel (Readable (flat_image 4 4 (10, 20, 30)))
                             [97; 98] ["r"; "b"]%string = Ok out /\
    open_image (Readable (flat_image 4 4 (10, 20, 30))) = Ok img /\
    lsbs_only true false true img out.
Proof.
  destruct (encode_lsb_multi_channel (Readable (flat_image 4 4 (10, 20, 30)))
              [97; 98] ["r"; "b"]%string) as [out | e] eqn:E.
  - destruct (multi_channel_encode_frame _ _ _ out E) as (img & Himg & H).
    exists out, img. repeat split; try assumption; apply H.
  - vm_compute in E. discriminate E.
Defined.

(** ** Three channels written, three channels read *)

Lemma write_multi_nil use_r use_g use_b (img : image)
  (seqn : list (nat * nat)) :
  write_multi use_r use_g use_b img [] seqn = img.
Proof. destruct seqn as [| [x y] seqn]; reflexivity. Qed.

Lemma write_multi_untouched use_r use_g use_b (seqn : list (nat * nat)) :
  forall img bits x y,
    ~ In (x, y) seqn ->
    px (write_multi use_r use_g use_b img bits seqn) x y = px img x y.
Proof.
  induction seqn as [| [x0 y0] seqn IH]; intros img bits x y Hnot;
    [reflexivity |].
  cbn [write_multi]. destruct bits as [| bit bits]; [reflexivity |].
  destruct (px img x0 y0) as [[r g] b].
  destruct (put_bit use_r r (bit :: bits)) as [r' bits1].
  destruct (put_bit use_g g bits1) as [g' bits2].
  destruct (put_bit use_b b bits2) as [b' bits3].
  rewrite IH by (intros H; apply Hnot; now right).
  cbn [set_px px].
  destruct ((x =? x0)%nat && (y =? y0)%nat) eqn:E; [| reflexivity].
  apply andb_true_iff in E. destruct E as [Ex Ey].
  apply Nat.eqb_eq in Ex, Ey. subst. exfalso. apply Hnot. now left.
Qed.

Lemma rgb_bits_elsewhere (img : image) (x y : nat) (p : pixel)
  (seqn : list (nat * nat)) :
  ~ In (x, y) seqn ->
  flat_map (fun xy => rgb_bits (px (set_px img x y p) (fst xy) (snd xy))) seqn
  = flat_map (fun xy => rgb_bits (px img (fst xy) (snd xy))) seqn.
Proof.
  intros Hnot. induction seqn as [| [x' y'] seqn IH]; [reflexivity |].
  cbn [flat_map].
  rewrite IH by (intros H; apply Hnot; now right).
  cbn [fst snd set_px px].
  destruct ((x' =? x)%nat && (y' =? y)%nat) eqn:E; [| reflexivity].
  apply andb_true_iff in E. destruct E as [Ex Ey].
  apply Nat.eqb_eq in Ex, Ey. subst. exfalso. apply Hnot. now left.
Qed.

(** Along distinct pixels, the three LSBs per pixel read after the write
    are the bits written, followed by the LSBs that were there. *)
Lemma write_multi_read3 (seqn : list (nat * nat)) :
  forall img bits,
    NoDup seqn -> (length bits <= 3 * length seqn)%nat ->
    flat_map (fun xy =>
                rgb_bits (px (write_multi true true true img bits seqn)
                             (fst xy) (snd xy))) seqn
    = bits ++ skipn (length bits)
                    (flat_map (fun xy => rgb_bits (px img (fst xy) (snd xy)))
                              seqn).
Proof.
  induction seqn as [| [x y] seqn IH]; intros img bits Hnd Hlen.
  - destruct bits; [reflexivity | simpl in Hlen; lia].
  - inversion Hnd as [| ? ? Hnotin Hnd']; subst.
    destruct bits as [| b1 bits]; [now rewrite write_multi_nil |].
    cbn [write_multi put_bit flat_map fst snd].
    destruct (px img x y) as [[r g] b] eqn:Hp.
    destruct bits as [| b2 bits].
    { rewrite write_multi_nil, rgb_bits_elsewhere by exact Hnotin.
      cbn [set_px px]. rewrite !Nat.eqb_refl. cbn [andb].
      unfold rgb_bits at 1 3. unfold red, green, blue. cbn [fst snd].
      now rewrite set_lsb_low. }
    destruct bits as [| b3 bits].
    { rewrite write_multi_nil, rgb_bits_elsewhere by exact Hnotin.
      cbn [set_px px]. rewrite !Nat.eqb_refl. cbn [andb].
      unfold rgb_bits at 1 3. unfold red, green, blue. cbn [fst snd].
      now rewrite !set_lsb_low. }
    rewrite write_multi_untouched by exact Hnotin.
    rewrite IH by (try assumption; simpl in Hlen |- *; lia).
    rewrite rgb_bits_elsewhere by exact Hnotin.
    cbn [set_px px]. rewrite !Nat.eqb_refl. cbn [andb].
    unfold rgb_bits at 1 3. unfold red, green, blue. cbn [fst snd].
    now rewrite !set_lsb_low.
Qed.

Lemma encode_lsb_multi_channel_rgb (img : image) (message : text) :
  encode_lsb_multi_channel (Readable img) message ["r"; "g"; "b"]%string
  = if Z.of_nat (length message)
       >? (Z.of_nat (width img * height img) - 8) / 8 * 3
    then Err (MessageTooLarge
                ((Z.of_nat (width img * height img) - 8) / 8 * 3))
    else Ok (write_multi true true true img (lsb_frame message)
                         (raster (width img) (height img))).
Proof. reflexivity. Qed.

Lemma multi_channel_bits3 :
  forall img message out,
    Forall is_byte message ->
    encode_lsb_multi_channel (Readable img) message ["r"; "g"; "b"]%string
    = Ok out ->
    raster_bits3 out
    = flat_map (to_bits 8) message ++ lsb_terminator
      ++ skipn (8 * length message + 8) (raster_bits3 img).
Proof.
  intros img message out Hbytes Henc.
  rewrite encode_lsb_multi_channel_rgb in Henc.
  destruct (_ >? _) eqn:Hcap; [discriminate |].
  inversion Henc as [Hout]. clear Henc.
  rewrite Z.gtb_ltb in Hcap. apply Z.ltb_ge in Hcap.
  assert (Hframe : lsb_frame message
                   = flat_map (to_bits 8) message ++ lsb_terminator).
  { unfold lsb_frame. now rewrite flat_map_format_08b_bytes. }
  assert (Hflen : length (lsb_frame message) = (8 * length message + 8)%nat).
  { rewrite Hframe, length_app, flat_map_to_bits8_length. reflexivity. }
  unfold raster_bits3.
  destruct (write_multi_size true true true
              (raster (width img) (height img)) img (lsb_frame message))
    as [-> ->].
  rewrite write_multi_read3.
  - rewrite Hflen. rewrite Hframe at 1. now rewrite <- app_assoc.
  - apply raster_NoDup.
  - rewrite Hflen, raster_length. zify. Z.div_mod_to_equations. lia.
Qed.

(** X6.  With the channels 'r', 'g', 'b' the message is written whole:
    read in raster order, red then green then blue, the LSBs of the saved
    image are the eight bits of each character, the terminator
    ['11111110'], and then the LSBs the input image had there. *)
Theorem multi_channel_bits_read_back :
  forall img message out,
    Forall is_byte message ->
    encode_lsb_multi_channel (Readable img) message ["r"; "g"; "b"]%string
    = Ok out ->
    raster_bits3 out
    = flat_map (to_bits 8) message ++ lsb_terminator
      ++ skipn (8 * length message + 8) (raster_bits3 img).
Proof. exact multi_channel_bits3. Qed.

Lemma multi_channel_bits_read_back_witness :
  exists out,
    encode_lsb_multi_channel (Readable (flat_image 4 4 (10, 20, 30)))
                             [97; 98; 99] ["r"; "g"; "b"]%string = Ok out /\
    raster_bits3 out
    = flat_map (to_bits 8) [97; 98; 99] ++ lsb_terminator
      ++ skipn (8 * 3 + 8) (raster_bits3 (flat_image 4 4 (10, 20, 30))).
Proof.
  destruct (encode_lsb_multi_channel (Readable (flat_image 4 4 (10, 20, 30)))
              [97; 98; 99] ["r"; "g"; "b"]%string) as [out | e] eqn:E.
  - exists out. split; [reflexivity |].
    apply (multi_channel_bits_read_back (flat_image 4 4 (10, 20, 30))
                                        [97; 98; 99] out).
    + repeat constructor; unfold is_byte; lia.
    + exact E.
  - vm_compute in E. discriminate E.
Defined.

(** ** The multi-channel encoder and [decode_standard_lsb] *)

Lemma bytes_of_bits_app_bytes (bs : list Z) (rest : list bool) :
  Forall is_byte bs ->
  bytes_of_bits (flat_map (to_bits 8) bs ++ rest) = bs ++ bytes_of_bits rest.
Proof.
  induction 1 as [| b bs Hb _ IH]; [reflexivity |].
  cbn [flat_map]. rewrite to_bits8_eq. cbn [app bytes_of_bits].
  rewrite IH, <- to_bits8_eq. now rewrite int2_to_bits8.
Qed.

Lemma bytes_of_bits_length_exact (bits : list bool) :
  (length bits mod 8 = 0)%nat ->
  (8 * length (bytes_of_bits bits) = length bits)%nat.
Proof.
  induction bits as [l Hl | a7 a6 a5 a4 a3 a2 a1 a0 l IH] using list_ind8;
    intros Hmod.
  - rewrite bytes_of_bits_short by exact Hl.
    cbn [length]. zify. Z.div_mod_to_equations. lia.
  - change (bytes_of_bits (a7 :: a6 :: a5 :: a4 :: a3 :: a2 :: a1 :: a0 :: l))
      with (int2 [a7; a6; a5; a4; a3; a2; a1; a0] :: bytes_of_bits l).
    cbn [length] in *.
    assert (H : (length l mod 8 = 0)%nat)
      by (zify; Z.div_mod_to_equations; lia).
    specialize (IH H). lia.
Qed.

Lemma app_eq_same_length {A} (a b c d : list A) :
  a ++ b = c ++ d -> length a = length c -> a = c.
Proof.
  revert c. induction a as [| x a IH]; intros c Heq Hlen.
  - destruct c; [reflexivity | discriminate Hlen].
  - destruct c as [| y c]; [discriminate Hlen |].
    cbn [app] in Heq. inversion Heq; subst.
    f_equal. apply IH; [assumption | simpl in Hlen; lia].
Qed.

(** On an image written by the multi-channel encoder the raster scan for
    ['00000000'] never returns the bytes of the message: it either
    reads past the encoder's terminator or stops in front of it. *)
Lemma standard_scan_misses_message :
  forall img message out,
    Forall is_byte message ->
    encode_lsb_multi_channel (Readable img) message ["r"; "g"; "b"]%string
    = Ok out ->
    decode_standard_lsb (Readable out) <> Ok message.
Proof.
  intros img message out Hbytes Henc Hdec.
  pose proof (multi_channel_bits3 img message out Hbytes Henc) as Hbits.
  rewrite decode_standard_lsb_scan in Hdec. inversion Hdec as [Hs]. clear Hdec.
  assert (Hlen3 : length (raster_bits3 out)
                  = (3 * (width out * height out))%nat)
    by apply raster_bits3_length.
  destruct (scan_raster_cases standard_terminator
              (triples (raster_bits3 out)) [])
    as [Hall | (read & rest & k & Heq & _ & _ & Hmod & Hge & Hlast & Hdrop)].
  - rewrite Hall in Hs. cbn [app] in Hs.
    rewrite (concat_triples _ _ Hlen3), Hbits in Hs.
    rewrite bytes_of_bits_app_bytes in Hs by exact Hbytes.
    apply (f_equal (@length Z)) in Hs.
    rewrite length_app in Hs.
    change (lsb_terminator ++ ?r) with
      ([true; true; true; true; true; true; true; false] ++ r) in Hs.
    cbn [app bytes_of_bits length] in Hs. lia.
  - rewrite Hdrop in Hs. cbn [app] in Heq.
    rewrite (concat_triples _ _ Hlen3), Hbits in Heq.
    assert (Hdl : length (drop_last_n 8 read) = (length read - 8)%nat).
    { unfold drop_last_n. rewrite length_firstn. lia. }
    assert (Hx : (8 * length message = length read - 8)%nat).
    { rewrite <- Hs, <- Hdl. apply bytes_of_bits_length_exact.
      rewrite Hdl. zify. Z.div_mod_to_equations. lia. }
    rewrite app_assoc in Heq. symmetry in Heq.
    apply app_eq_same_length in Heq.
    + rewrite Heq in Hlast.
      assert (Ht : last_n 8 (flat_map (to_bits 8) message ++ lsb_terminator)
                   = lsb_terminator)
        by exact (last_n_app (flat_map (to_bits 8) message) lsb_terminator).
      rewrite Ht in Hlast. discriminate Hlast.
    + rewrite length_app, flat_map_to_bits8_length.
      change (length lsb_terminator) with 8%nat. lia.
Qed.

(** X7.  [decode_standard_lsb] does not invert the multi-channel encoder:
    for every message of characters U+0000..U+00FF encoded with the
    channels 'r', 'g', 'b', it returns something other than the message
    (the encoder's terminator is ['11111110'], the decoder stops at
    ['00000000']). *)
Theorem multi_channel_not_inverted_by_standard :
  forall img message out,
    Forall is_byte message ->
    encode_lsb_multi_channel (Readable img) message ["r"; "g"; "b"]%string
    = Ok out ->
    decode_standard_lsb (Readable out) <> Ok message.
Proof. exact standard_scan_misses_message. Qed.

Lemma multi_channel_not_inverted_by_standard_witness :
  exists out,
    encode_lsb_multi_channel (Readable (flat_image 4 4 (10, 20, 30)))
                             [97; 98; 99] ["r"; "g"; "b"]%string = Ok out /\
    decode_standard_lsb (Readable out) <> Ok [97; 98; 99].
Proof.
  destruct (encode_lsb_multi_channel (Readable (flat_image 4 4 (10, 20, 30)))
              [97; 98; 99] ["r"; "g"; "b"]%string) as [out | e] eqn:E.
  - exists out. split; [reflexivity |].
    apply (multi_channel_not_inverted_by_standard
             (flat_image 4 4 (10, 20, 30)) [97; 98; 99] out).
    + repeat constructor; unfold is_byte; lia.
    + exact E.
  - vm_compute in E. discriminate E.
Defined.

(** * Decoding an image of the multi-channel encoder *)

Lemma Ok_inj {A} (a b : A) : Ok a = Ok b -> a = b.
Proof. intros H. now inversion H. Qed.




(** * The format detector *)

Lemma bytes_of_bits_nonempty (bits : list bool) :
  (8 <= length bits)%nat -> exists c s, bytes_of_bits bits = c :: s.
Proof.
  intros H.
  destruct bits as [| a7 [| a6 [| a5 [| a4 [| a3 [| a2 [| a1 [| a0 l]]]]]]]];
    try (simpl in H; lia).
  eexists. eexists. reflexivity.
Qed.

(** Reading one bit per pixel, a whole number of bytes already passed is
    never lost. *)
Lemma scan1_keeps terminator (bits binary : list bool) (n : nat) :
  (8 * n <= length binary)%nat ->
  (8 * n <= length (scan_raster terminator (singles bits) binary))%nat.
Proof.
  intros Hn.
  destruct (scan_raster_cases terminator (singles bits) binary)
    as [-> | (read & rest & k & _ & Hk & Hread & Hmod & _ & _ & ->)].
  - rewrite length_app. lia.
  - rewrite length_singles in Hk.
    rewrite firstn_singles, concat_singles in Hread.
    assert (Hlen : length read = (length binary + S k)%nat).
    { rewrite Hread, length_app, length_firstn. lia. }
    unfold drop_last_n. rewrite length_firstn.
    zify. Z.div_mod_to_equations. lia.
Qed.

Lemma detect_stegai_from_first_byte (img : image) :
  (8 <= width img * height img)%nat ->
  firstn 8 (raster_bits1 img) <> lsb_terminator ->
  detect_encoding_format (Readable img) = Stegai.
Proof.
  intros Hsize Hfirst. unfold detect_encoding_format.
  rewrite decode_lsb_scan.
  rewrite <- (firstn_skipn 8 (raster_bits1 img)).
  assert (Hlen : length (firstn 8 (raster_bits1 img)) = 8%nat).
  { rewrite length_firstn, raster_bits1_length. lia. }
  rewrite scan1_byte; [| exact Hlen | reflexivity | exact Hfirst].
  pose proof (scan1_keeps lsb_terminator (skipn 8 (raster_bits1 img))
                ([] ++ firstn 8 (raster_bits1 img)) 1) as Hkeep.
  cbn [app] in Hkeep. rewrite Hlen in Hkeep. specialize (Hkeep (le_n _)).
  cbn [app].
  destruct (bytes_of_bits_nonempty _ Hkeep) as (c & s & ->). reflexivity.
Qed.

(** X8.  Every image file of mode RGB with at least 8 pixels is reported
    as ['stegai'], unless the red LSBs of its first eight pixels in raster
    order spell ['11111110']: the detector only asks [decode_lsb] for a
    non-empty string. *)
Theorem detect_reports_stegai :
  forall img,
    (8 <= width img * height img)%nat ->
    firstn 8 (raster_bits1 img)
    <> [true; true; true; true; true; true; true; false] ->
    detect_encoding_format (Readable img) = Stegai.
Proof. exact detect_stegai_from_first_byte. Qed.

Lemma detect_reports_stegai_witness :
  detect_encoding_format (Readable (flat_image 4 2 (10, 20, 30))) = Stegai.
Proof.
  apply detect_reports_stegai.
  - vm_compute. lia.
  - vm_compute. discriminate.
Defined.

(** X9.  An image saved by [encode_lsb] for a non-empty message of
    characters U+0000..U+00FF that does not start with U+00FE is reported
    as ['stegai']. *)
Theorem detect_after_encode_lsb :
  forall img c message out,
    Forall is_byte (c :: message) -> c <> 254 ->
    encode_lsb (Readable img) (c :: message) = Ok out ->
    detect_encoding_format (Readable out) = Stegai.
Proof.
  intros img c message out Hbytes Hc Henc. unfold detect_encoding_format.
  rewrite (decode_lsb_encode_lsb img (c :: message) out Hbytes Henc).
  cbn [before_fe]. apply Z.eqb_neq in Hc. now rewrite Hc.
Qed.

Lemma detect_after_encode_lsb_witness :
  exists out,
    encode_lsb (Readable (flat_image 8 4 (10, 20, 30))) [104; 105] = Ok out /\
    detect_encoding_format (Readable out) = Stegai.
Proof.
  destruct (encode_lsb (Readable (flat_image 8 4 (10, 20, 30))) [104; 105])
    as [out | e] eqn:E.
  - exists out. split; [reflexivity |].
    apply (detect_after_encode_lsb (flat_image 8 4 (10, 20, 30)) 104 [105]).
    + repeat constructor; unfold is_byte; lia.
    + lia.
    + exact E.
  - vm_compute in E. discriminate E.
Defined.

Lemma decode_lsb_small (img : image) :
  (width img * height img < 8)%nat -> decode_lsb (Readable img) = Ok [].
Proof.
  intros H. rewrite decode_lsb_scan. f_equal. apply bytes_of_bits_short.
  pose proof (scan_raster_length lsb_terminator
                (singles (raster_bits1 img)) []) as Hl.
  rewrite concat_singles, raster_bits1_length in Hl. simpl in Hl. lia.
Qed.

(** X10.  The detector answers ['unknown'] for a missing path, an
    unsupported extension, an undecodable file and an image file of mode
    RGB with fewer than 3 pixels, and ['standard'] for every image file
    of mode RGB with 3 to 7 pixels, which is too small for [decode_lsb]
    to return a character. *)
Theorem detect_small_or_unreadable :
  detect_encoding_format Missing = Unknown /\
  (forall content, detect_encoding_format (Present false content) = Unknown) /\
  (forall ext, detect_encoding_format (Present ext None) = Unknown) /\
  (forall img, (width img * height img < 3)%nat ->
               detect_encoding_format (Readable img) = Unknown) /\
  (forall img, (3 <= width img * height img < 8)%nat ->
               detect_encoding_format (Readable img) = Standard).
Proof.
  split; [reflexivity |]. split; [reflexivity |].
  split; [intros [|]; reflexivity |]. split.
  - intros img H. unfold detect_encoding_format.
    rewrite decode_lsb_small by lia.
    rewrite decode_standard_lsb_scan.
    rewrite bytes_of_bits_short; [reflexivity |].
    pose proof (scan_raster_length standard_terminator
                  (triples (raster_bits3 img)) []) as Hl.
    rewrite (concat_triples _ _ (raster_bits3_length img)) in Hl.
    rewrite raster_bits3_length in Hl. simpl in Hl. lia.
  - intros img H. unfold detect_encoding_format.
    rewrite decode_lsb_small by lia.
    rewrite decode_standard_lsb_scan.
    pose proof (raster_bits3_length img) as Hlen.
    destruct (scan_raster_cases standard_terminator
                (triples (raster_bits3 img)) [])
      as [-> | (read & rest & k & _ & Hk & Hread & Hmod & _ & _ & _)].
    + cbn [app]. rewrite (concat_triples _ _ Hlen).
      destruct (bytes_of_bits_nonempty (raster_bits3 img)) as (c & s & ->);
        [lia | reflexivity].
    + exfalso. rewrite (length_triples _ _ Hlen) in Hk.
      cbn [app] in Hread.
      rewrite (concat_firstn_triples (S k) _ _ Hlen) in Hread by lia.
      assert (Hl : length read = (3 * S k)%nat)
        by (rewrite Hread, length_firstn; lia).
      zify. Z.div_mod_to_equations. lia.
Qed.

Lemma detect_small_or_unreadable_witness :
  detect_encoding_format (Readable (flat_image 2 2 (10, 20, 30))) = Standard.
Proof.
  apply (proj2 (proj2 (proj2 (proj2 detect_small_or_unreadable)))).
  vm_compute. lia.
Defined.

(** * Further properties of the candidate sequence *)

Lemma raster_in (w h x y : nat) :
  In (x, y) (raster w h) <-> (x < w)%nat /\ (y < h)%nat.
Proof.
  unfold raster. rewrite in_flat_map. split.
  - intros (y' & Hy & Hin). apply in_map_iff in Hin.
    destruct Hin as (x' & Hx & Hin). inversion Hx; subst.
    apply in_seq in Hy, Hin. lia.
  - intros [Hx Hy]. exists y. split; [apply in_seq; lia |].
    apply in_map_iff. exists x. split; [reflexivity | apply in_seq; lia].
Qed.

Lemma candidates_spec (m : importance) (w h : nat) (threshold : Z)
  (x y : nat) (v : Z) :
  In (x, y, v) (candidates m w h threshold) <->
  (x < w)%nat /\ (y < h)%nat /\ v = m y x /\ threshold <= v.
Proof.
  unfold candidates. rewrite in_flat_map. split.
  - intros ([x' y'] & Hin & Hc). apply raster_in in Hin.
    destruct (threshold <=? m y' x') eqn:Ht; [| contradiction].
    destruct Hc as [Hc | []]. inversion Hc; subst.
    apply Z.leb_le in Ht. tauto.
  - intros (Hx & Hy & -> & Ht). exists (x, y).
    split; [now apply raster_in |].
    apply Z.leb_le in Ht. rewrite Ht. now left.
Qed.

Lemma coords_candidates (m : importance) (w h : nat) (threshold : Z) :
  coords (candidates m w h threshold)
  = filter (fun xy => threshold <=? m (snd xy) (fst xy)) (raster w h).
Proof.
  unfold candidates, coords, candidate.
  induction (raster w h) as [| [x y] l IH]; [reflexivity |].
  match goal with
  | |- map ?g (flat_map ?f (?a :: ?l)) = _ =>
      change (map g (flat_map f (a :: l)))
        with (map g (f a ++ flat_map f l))
  end.
  rewrite map_app, IH. cbn [filter fst snd].
  destruct (threshold <=? m y x); reflexivity.
Qed.

Lemma coords_candidates_NoDup (m : importance) (w h : nat) (threshold : Z) :
  NoDup (coords (candidates m w h threshold)).
Proof. rewrite coords_candidates. apply NoDup_filter, raster_NoDup. Qed.

Lemma coords_enc_NoDup (m : importance) (img : image) (threshold : Z) :
  NoDup (coords (pixel_importance_enc m img threshold)).
Proof.
  eapply Permutation_NoDup;
    [| apply (coords_candidates_NoDup m (width img) (height img) threshold)].
  unfold coords. apply Permutation_map, stable_sort_perm.
Qed.

(** X11.  Encoder and decoder select the same pixels: their candidate
    sequences are permutations of each other, no pixel occurs twice, and
    a pixel is a candidate exactly when it lies in the image and its
    score is at least the threshold.  Only the order can differ. *)
Theorem candidate_sequences_same_pixels :
  forall m img threshold,
    Permutation (pixel_importance_enc m img threshold)
                (pixel_importance_dec m img threshold) /\
    NoDup (coords (pixel_importance_enc m img threshold)) /\
    NoDup (coords (pixel_importance_dec m img threshold)) /\
    forall x y v,
      In (x, y, v) (pixel_importance_enc m img threshold) <->
      (x < width img)%nat /\ (y < height img)%nat /\
      v = m y x /\ threshold <= v.
Proof.
  intros m img threshold.
  assert (He : Permutation (candidates m (width img) (height img) threshold)
                           (pixel_importance_enc m img threshold))
    by apply stable_sort_perm.
  assert (Hd : Permutation (candidates m (width img) (height img) threshold)
                           (pixel_importance_dec m img threshold))
    by apply stable_sort_perm.
  split; [now rewrite <- He, <- Hd |].
  split; [apply coords_enc_NoDup |]. split.
  - eapply Permutation_NoDup;
      [| apply (coords_candidates_NoDup m (width img) (height img) threshold)].
    unfold coords. now apply Permutation_map.
  - intros x y v. rewrite <- candidates_spec. split; intros H.
    + eapply Permutation_in; [symmetry; exact He | exact H].
    + eapply Permutation_in; [exact He | exact H].
Qed.

(** X12.  The encoder's candidate sequence is in descending order of
    score, and the candidates of one score keep their row-major scan
    order; the decoder's sequence is in ascending order of its key
    [(-score mod 256, x, y)]. *)
Theorem candidate_sequences_sorted :
  forall m img threshold,
    StronglySorted (fun a b => cand_imp b <= cand_imp a)
                   (pixel_importance_enc m img threshold) /\
    (forall v,
        filter (fun c => cand_imp c =? v)
               (pixel_importance_enc m img threshold)
        = filter (fun c => cand_imp c =? v)
                 (candidates m (width img) (height img) threshold)) /\
    StronglySorted (fun a b => key_le (dec_key a) (dec_key b) = true)
                   (pixel_importance_dec m img threshold).
Proof.
  intros m img threshold. unfold pixel_importance_enc, pixel_importance_dec.
  destruct (sort_enc_spec (candidates m (width img) (height img) threshold))
    as (_ & Hsorted & Hstable).
  destruct (sort_dec_spec (candidates m (width img) (height img) threshold))
    as (_ & Hdec).
  split; [exact Hsorted | split; [exact Hstable | exact Hdec]].
Qed.

Lemma candidates_length_antitone (m : importance) (w h : nat) (t1 t2 : Z) :
  t1 <= t2 ->
  (length (candidates m w h t2) <= length (candidates m w h t1))%nat.
Proof.
  intros Ht. unfold candidates.
  induction (raster w h) as [| [x y] l IH]; [reflexivity |].
  cbn [flat_map]. rewrite !length_app.
  destruct (t2 <=? m y x) eqn:E2; destruct (t1 <=? m y x) eqn:E1;
    cbn [length]; unfold candidate in *; lia.
Qed.

(** X13.  Raising the threshold never adds a candidate, so a message
    [encode_ai] accepts at a threshold is accepted at every lower one. *)
Theorem lower_threshold_still_encodes :
  forall imread_gray edge_norm img message t1 t2 out,
    t1 <= t2 ->
    encode_ai imread_gray edge_norm (Readable img) message t2 = Ok out ->
    (length (pixel_importance_enc (enc_map imread_gray edge_norm img) img t2)
     <= length (pixel_importance_enc (enc_map imread_gray edge_norm img)
                                     img t1))%nat /\
    exists out',
      encode_ai imread_gray edge_norm (Readable img) message t1 = Ok out'.
Proof.
  intros imread_gray edge_norm img message t1 t2 out Ht Henc.
  assert (Hlen : (length (pixel_importance_enc
                            (enc_map imread_gray edge_norm img) img t2)
                  <= length (pixel_importance_enc
                               (enc_map imread_gray edge_norm img) img t1))%nat).
  { unfold pixel_importance_enc, sort_enc. rewrite !stable_sort_length.
    now apply candidates_length_antitone. }
  split; [exact Hlen |].
  rewrite encode_ai_readable in Henc |- *. cbv zeta in Henc |- *.
  destruct (_ >? _); [discriminate |].
  destruct (utf8_encode message) as [bytes |]; [| discriminate].
  destruct (_ <? _)%nat eqn:E2 in Henc; [discriminate |].
  apply Nat.ltb_ge in E2.
  replace (_ <? _)%nat with false by (symmetry; apply Nat.ltb_ge; lia).
  eexists. reflexivity.
Qed.

Lemma lower_threshold_still_encodes_witness :
  exists out',
    encode_ai luma no_edges (Readable (flat_image 10 10 (10, 20, 30)))
              [104; 105] (-5) = Ok out'.
Proof.
  destruct (encode_ai luma no_edges (Readable (flat_image 10 10 (10, 20, 30)))
                      [104; 105] 0) as [out | e] eqn:E.
  - apply (lower_threshold_still_encodes luma no_edges
             (flat_image 10 10 (10, 20, 30)) [104; 105] (-5) 0 out);
      [lia | exact E].
  - vm_compute in E. discriminate E.
Defined.

(** * Thresholds and sizes at the edges *)

Lemma candidates_all (m : importance) (w h : nat) (threshold : Z) :
  (forall y x, threshold <= m y x) ->
  length (candidates m w h threshold) = (w * h)%nat.
Proof.
  intros H. unfold candidates, candidate. rewrite <- (raster_length w h).
  generalize (raster w h) as l.
  induction l as [| [x y] l IH]; [reflexivity |].
  cbn [flat_map]. rewrite length_app, IH.
  specialize (H y x). apply Z.leb_le in H. now rewrite H.
Qed.

Lemma candidates_none (m : importance) (w h : nat) (threshold : Z) :
  (forall y x, m y x < threshold) -> candidates m w h threshold = [].
Proof.
  intros H. unfold candidates, candidate.
  induction (raster w h) as [| [x y] l IH]; [reflexivity |].
  cbn [flat_map]. rewrite IH.
  specialize (H y x). apply Z.leb_gt in H. now rewrite H.
Qed.

Lemma enc_map_uint8 imread_gray edge_norm img y x :
  0 <= enc_map imread_gray edge_norm img y x < 256.
Proof. unfold enc_map. apply Z.mod_pos_bound. lia. Qed.

Lemma dec_map_uint8 bgr2gray edge_norm img y x :
  0 <= dec_map bgr2gray edge_norm img y x < 256.
Proof. unfold dec_map. apply Z.mod_pos_bound. lia. Qed.

(** X14.  At a threshold of 0 or less every pixel of the image is a
    candidate, on both sides.  At a threshold above 255 no pixel is:
    [encode_ai] rejects every message, and the candidate sequence and the
    extracted bits of the decoder are empty. *)
Theorem threshold_extremes :
  forall imread_gray bgr2gray edge_norm img threshold,
    (threshold <= 0 ->
     length (pixel_importance_enc (enc_map imread_gray edge_norm img)
                                  img threshold)
     = (width img * height img)%nat /\
     length (pixel_importance_dec (dec_map bgr2gray edge_norm img)
                                  img threshold)
     = (width img * height img)%nat) /\
    (255 < threshold ->
     (forall message,
         exists e,
           encode_ai imread_gray edge_norm (Readable img) message threshold
           = Err e) /\
     pixel_importance_dec (dec_map bgr2gray edge_norm img) img threshold = []
     /\ ai_bits (dec_map bgr2gray edge_norm img) img threshold = []).
Proof.
  intros imread_gray bgr2gray edge_norm img threshold. split; intros Ht.
  - unfold pixel_importance_enc, pixel_importance_dec, sort_enc, sort_dec.
    rewrite !stable_sort_length. split; apply candidates_all; intros y x.
    + pose proof (enc_map_uint8 imread_gray edge_norm img y x). lia.
    + pose proof (dec_map_uint8 bgr2gray edge_norm img y x). lia.
  - split.
    + intros message. rewrite encode_ai_readable. cbv zeta.
      destruct (_ >? _); [eexists; reflexivity |].
      destruct (utf8_encode message) as [bytes |]; [| eexists; reflexivity].
      unfold pixel_importance_enc. rewrite candidates_none.
      * pose proof (ai_frame_length bytes) as Hf.
        replace (_ <? _)%nat with true
          by (symmetry; apply Nat.ltb_lt; simpl; lia).
        eexists. reflexivity.
      * intros y x.
        pose proof (enc_map_uint8 imread_gray edge_norm img y x). lia.
    + assert (Hnone : pixel_importance_dec (dec_map bgr2gray edge_norm img)
                                           img threshold = []).
      { unfold pixel_importance_dec. rewrite candidates_none; [reflexivity |].
        intros y x.
        pose proof (dec_map_uint8 bgr2gray edge_norm img y x). lia. }
      split; [exact Hnone |]. unfold ai_bits. now rewrite Hnone.
Qed.

Lemma threshold_extremes_witness :
  ai_bits (dec_map luma no_edges (flat_image 10 10 (11, 21, 31)))
          (flat_image 10 10 (11, 21, 31)) 256
  = [].
Proof.
  apply (proj2 (threshold_extremes luma luma no_edges
                  (flat_image 10 10 (11, 21, 31)) 256)).
  lia.
Defined.

(** X15.  An image of fewer than 8 pixels has the capacity
    [(width * height - 8) // 8 = -1]: [encode_lsb] and [encode_ai] reject
    every message, the empty one included, with the too-large error. *)
Theorem tiny_image_rejects_every_message :
  forall imread_gray edge_norm img message threshold,
    (width img * height img < 8)%nat ->
    encode_lsb (Readable img) message = Err (MessageTooLarge (-1)) /\
    encode_ai imread_gray edge_norm (Readable img) message threshold
    = Err (MessageTooLarge (-1)).
Proof.
  intros imread_gray edge_norm img message threshold Hsmall.
  assert (Hcap : (Z.of_nat (width img * height img) - 8) / 8 = -1)
    by (zify; Z.div_mod_to_equations; lia).
  rewrite encode_lsb_readable, encode_ai_readable. cbv zeta. rewrite Hcap.
  replace (Z.of_nat (length message) >? -1) with true
    by (symmetry; rewrite Z.gtb_ltb; apply Z.ltb_lt; lia).
  now split.
Qed.

Lemma tiny_image_rejects_every_message_witness :
  encode_lsb (Readable (flat_image 7 1 (10, 20, 30))) []
  = Err (MessageTooLarge (-1)).
Proof.
  apply (tiny_image_rejects_every_message luma no_edges
           (flat_image 7 1 (10, 20, 30)) [] 0).
  vm_compute. lia.
Defined.

(** X16.  When [validate_image_path] rejects the path, the three
    encoders and the two raster decoders fail with that same error,
    whatever the file holds.  [decode_ai] does not: it never reaches the
    validation and raises [UnboundLocalError]. *)
Theorem validation_error_reaches_caller :
  forall imread_gray bgr2gray edge_norm f e message channels threshold,
    validate_image_path f = Err e ->
    encode_lsb f message = Err e /\
    encode_lsb_multi_channel f message channels = Err e /\
    encode_ai imread_gray edge_norm f message threshold = Err e /\
    decode_lsb f = Err e /\
    decode_standard_lsb f = Err e /\
    decode_ai bgr2gray edge_norm f threshold
    = Err (UnboundLocalError "logger").
Proof.
  intros imread_gray bgr2gray edge_norm f e message channels threshold H.
  destruct f as [| [|] content]; simpl in H; try discriminate;
    inversion H; subst e; repeat split; reflexivity.
Qed.

Lemma validation_error_reaches_caller_witness :
  decode_lsb (Present false (Some (flat_image 8 8 (10, 20, 30))))
  = Err UnsupportedFormat.
Proof.
  apply (validation_error_reaches_caller luma luma no_edges
           (Present false (Some (flat_image 8 8 (10, 20, 30))))
           UnsupportedFormat [] [] 100).
  reflexivity.
Defined.

(** * Further properties of the importance-guided codec *)

Lemma candidate_bits_coords (img : image) (cs : list candidate) :
  candidate_bits img cs
  = map (fun xy => lsb (red (px img (fst xy) (snd xy)))) (coords cs).
Proof. unfold candidate_bits, coords. now rewrite map_map. Qed.

Lemma encode_ai_candidate_bits :
  forall imread_gray edge_norm img message threshold out,
    encode_ai imread_gray edge_norm (Readable img) message threshold
    = Ok out ->
    exists message_bytes,
      utf8_encode message = Some message_bytes /\
      let cs := pixel_importance_enc (enc_map imread_gray edge_norm img)
                                     img threshold in
      candidate_bits out cs
      = ai_frame message_bytes
        ++ candidate_bits img (skipn (length (ai_frame message_bytes)) cs).
Proof.
  intros imread_gray edge_norm img message threshold out Henc.
  apply encode_ai_ok_inv in Henc.
  destruct Henc as (img' & m & bytes & Himg & Hm & Hu & _ & Hfit & ->).
  inversion Himg; subst img'. inversion Hm; subst m. clear Himg Hm.
  exists bytes. split; [exact Hu |]. cbv zeta.
  apply Nat.ltb_ge in Hfit.
  rewrite !candidate_bits_coords.
  rewrite write_bits_read.
  - unfold coords. now rewrite skipn_map.
  - apply coords_enc_NoDup.
  - unfold coords. now rewrite length_map.
Qed.

(** X17.  Reading mirrors writing: along the encoder's candidate sequence
    the red LSBs of the image [encode_ai] saves are the framed message
    (the UTF-8 bits and the encoder's 64-bit terminator), followed by the
    LSBs the remaining candidates had in the input image. *)
Theorem encode_ai_bits_read_back :
  forall imread_gray edge_norm img message threshold out,
    encode_ai imread_gray edge_norm (Readable img) message threshold
    = Ok out ->
    exists message_bytes,
      utf8_encode message = Some message_bytes /\
      let cs := pixel_importance_enc (enc_map imread_gray edge_norm img)
                                     img threshold in
      candidate_bits out cs
      = ai_frame message_bytes
        ++ candidate_bits img (skipn (length (ai_frame message_bytes)) cs).
Proof. exact encode_ai_candidate_bits. Qed.

Lemma encode_ai_bits_read_back_witness :
  exists out message_bytes,
    encode_ai luma no_edges (Readable (flat_image 100 1 (10, 20, 30)))
              [104; 105] 0 = Ok out /\
    utf8_encode [104; 105] = Some message_bytes /\
    candidate_bits out
      (pixel_importance_enc
         (enc_map luma no_edges (flat_image 100 1 (10, 20, 30)))
         (flat_image 100 1 (10, 20, 30)) 0)
    = ai_frame message_bytes
      ++ candidate_bits (flat_image 100 1 (10, 20, 30))
           (skipn (length (ai_frame message_bytes))
              (pixel_importance_enc
                 (enc_map luma no_edges (flat_image 100 1 (10, 20, 30)))
                 (flat_image 100 1 (10, 20, 30)) 0)).
Proof.
  destruct (encode_ai luma no_edges (Readable (flat_image 100 1 (10, 20, 30)))
                      [104; 105] 0) as [out | e] eqn:E.
  - destruct (encode_ai_bits_read_back luma no_edges
                (flat_image 100 1 (10, 20, 30)) [104; 105] 0 out E)
      as (bytes & Hu & H).
    exists out, bytes. split; [reflexivity |]. split; [exact Hu | exact H].
  - vm_compute in E. discriminate E.
Defined.

Lemma utf8_encode_cp_bytes (c : Z) (bs : list Z) :
  utf8_encode_cp c = Some bs -> Forall is_byte bs.
Proof.
  unfold utf8_encode_cp, is_surrogate.
  destruct (c <? 0) eqn:H0; [discriminate |].
  destruct (c <? 128) eqn:H1; [| destruct (c <? 2048) eqn:H2;
    [| destruct (c <? 65536) eqn:H3;
       [destruct ((55296 <=? c) && (c <=? 57343)) eqn:Hs; [discriminate |]
       | destruct (c <=? 1114111) eqn:H4; [| discriminate]]]];
    intros Hbs; apply Some_inj in Hbs; subst bs;
    repeat match goal with
           | H : (_ <=? _) = true |- _ => apply Z.leb_le in H
           | H : (_ <? _) = true |- _ => apply Z.ltb_lt in H
           | H : (_ <? _) = false |- _ => apply Z.ltb_ge in H
           end.
  - repeat constructor; unfold is_byte; lia.
  - split64 c q1 r1. clearbody q1 r1.
    repeat constructor; unfold is_byte; lia.
  - change 4096 with (64 * 64). rewrite <- Z.div_div by lia.
    split64 c q1 r1. split64 q1 q2 r2. clearbody q1 r1 q2 r2.
    repeat constructor; unfold is_byte; lia.
  - change 262144 with (64 * 64 * 64). change 4096 with (64 * 64).
    rewrite <- !Z.div_div by lia.
    split64 c q1 r1. split64 q1 q2 r2. split64 q2 q3 r3.
    clearbody q1 r1 q2 r2 q3 r3.
    repeat constructor; unfold is_byte; lia.
Qed.

Lemma utf8_encode_bytes (s : text) :
  forall bs, utf8_encode s = Some bs -> Forall is_byte bs.
Proof.
  induction s as [| c s IH]; intros bs H.
  - inversion H. constructor.
  - cbn [utf8_encode] in H.
    destruct (utf8_encode_cp c) as [b1 |] eqn:Hc; [| discriminate].
    destruct (utf8_encode s) as [b2 |]; [| discriminate].
    inversion H; subst bs. apply Forall_app. split.
    + now apply (utf8_encode_cp_bytes c).
    + now apply IH.
Qed.

(** The text stage of the decoder inverts the byte and bit conversions of
    the encoder. *)
Lemma text_of_payload_bits (message : text) (message_bytes : list Z) :
  utf8_encode message = Some message_bytes ->
  text_of_bytes (bytes_of_bits (flat_map format_08b message_bytes)) = message.
Proof.
  intros Hu. pose proof (utf8_encode_bytes _ _ Hu) as Hb.
  rewrite flat_map_format_08b_bytes, bytes_of_bits_to_bits by exact Hb.
  unfold text_of_bytes. now rewrite (utf8_decode_encode _ _ Hu).
Qed.

(** X18.  What lines 48-72 of [decode_ai] decode: when the red LSBs of
    the candidate pixels, in the decoder's order, are the UTF-8 bits of a
    message followed by 64 ones, and no run of 64 ones ends earlier, the
    extraction loop returns the bits of the message and the text stage
    returns the message, whatever follows. *)
Theorem extraction_accepts_64_ones :
  forall m img threshold message message_bytes rest fallback,
    utf8_encode message = Some message_bytes ->
    candidate_bits img (pixel_importance_dec m img threshold)
    = flat_map format_08b message_bytes ++ repeat true 64 ++ rest ->
    never_terminated (flat_map format_08b message_bytes ++ repeat true 63) ->
    ai_bits m img threshold = flat_map format_08b message_bytes /\
    decode_bytes (bytes_of_bits (ai_bits m img threshold)) fallback
    = Ok message.
Proof.
  intros m img threshold message bytes rest fallback Hu Hbits Hnt.
  assert (Hai : ai_bits m img threshold = flat_map format_08b bytes).
  { rewrite ai_bits_scan, Hbits. now apply scan_ai_stops_at_ones. }
  split; [exact Hai |].
  rewrite Hai, decode_bytes_total.
  now rewrite (text_of_payload_bits message bytes Hu).
Qed.

Lemma extraction_accepts_64_ones_witness :
  decode_bytes
    (bytes_of_bits
       (ai_bits (fun _ _ => 0)
          (write_bits (flat_image 100 1 (10, 20, 30))
             (flat_map format_08b [104; 104] ++ repeat true 64)
             (raster 100 1)) 0))
    (Err FileNotFoundError)
  = Ok [104; 104].
Proof.
  apply (extraction_accepts_64_ones (fun _ _ => 0) _ 0 [104; 104] [104; 104]
           (repeat false 20)).
  - reflexivity.
  - reflexivity.
  - apply never_terminated_windows. intros i Hi.
    change (length (flat_map format_08b [104; 104] ++ repeat true 63))
      with 79%nat in Hi.
    do 16 (destruct i as [| i]; [vm_compute; discriminate |]). lia.
Defined.

(** X19.  On the map the encoder computes, for a positive threshold and
    candidates of pairwise distinct scores, the decoder's ordering rule
    yields the very sequence the encoder's rule yields. *)
Theorem orders_agree_on_distinct_scores :
  forall imread_gray edge_norm img threshold,
    0 < threshold ->
    NoDup (map cand_imp
             (candidates (enc_map imread_gray edge_norm img)
                         (width img) (height img) threshold)) ->
    pixel_importance_dec (enc_map imread_gray edge_norm img) img threshold
    = pixel_importance_enc (enc_map imread_gray edge_norm img) img threshold.
Proof.
  intros imread_gray edge_norm img threshold Ht Hnd. symmetry.
  apply candidate_orders_agree; [| exact Ht | exact Hnd].
  intros y x. apply enc_map_uint8.
Qed.

Lemma orders_agree_on_distinct_scores_witness :
  pixel_importance_dec
    (enc_map luma ramp_edges (flat_image 3 1 (10, 20, 30)))
    (flat_image 3 1 (10, 20, 30)) 1
  = pixel_importance_enc
      (enc_map luma ramp_edges (flat_image 3 1 (10, 20, 30)))
      (flat_image 3 1 (10, 20, 30)) 1.
Proof.
  apply orders_agree_on_distinct_scores; [lia |].
  vm_compute. repeat constructor; simpl; intuition discriminate.
Defined.

(** ** The decoder's map of a saved image *)

(** X20.  Writing a payload does not move the decoder's importance map:
    for the image [encode_ai] or [encode_lsb] saves, the decoder computes
    at every position the score it computes for the input image. *)
Theorem decoder_map_ignores_payload :
  forall imread_gray bgr2gray edge_norm edge_norm' img message threshold out,
    encode_ai imread_gray edge_norm' (Readable img) message threshold = Ok out
    \/ encode_lsb (Readable img) message = Ok out ->
    forall y x,
      dec_map bgr2gray edge_norm out y x = dec_map bgr2gray edge_norm img y x.
Proof.
  intros imread_gray bgr2gray edge_norm edge_norm' img message threshold out
         [H | H] y x.
  - apply encode_ai_red_lsb_only in H. destruct H as [touched H].
    now apply (dec_map_payload_independent _ _ _ _ touched).
  - apply encode_lsb_ok_inv in H. destruct H as (img' & Himg & _ & ->).
    inversion Himg; subst img'.
    eapply dec_map_payload_independent. apply write_bits_red_lsb_only.
Qed.

Lemma decoder_map_ignores_payload_witness :
  exists out,
    encode_lsb (Readable (flat_image 8 4 (10, 20, 30))) [104; 105] = Ok out /\
    dec_map luma no_edges out 0%nat 0%nat
    = dec_map luma no_edges (flat_image 8 4 (10, 20, 30)) 0%nat 0%nat.
Proof.
  destruct (encode_lsb (Readable (flat_image 8 4 (10, 20, 30))) [104; 105])
    as [out | e] eqn:E.
  - exists out. split; [reflexivity |].
    apply (decoder_map_ignores_payload luma luma no_edges no_edges
             (flat_image 8 4 (10, 20, 30)) [104; 105] 0 out).
    right. exact E.
  - vm_compute in E. discriminate E.
Defined.

Lemma candidates_ext (m1 m2 : importance) (w h : nat) (threshold : Z) :
  (forall y x, m1 y x = m2 y x) ->
  candidates m1 w h threshold = candidates m2 w h threshold.
Proof.
  intros H. unfold candidates. apply flat_map_ext. intros [x y].
  now rewrite H.
Qed.

(** X21.  When the decoder's conversion of every pixel of the input
    image with its red LSB cleared gives the grayscale value the encoder's
    conversion gave for that pixel, the decoder computes for the image
    [encode_ai] saves the map the encoder computed for the input. *)
Theorem decoder_map_is_encoder_map_when_grays_agree :
  forall imread_gray bgr2gray edge_norm img message threshold out,
    (forall x y,
        bgr2gray (clear_red_lsb (px img x y)) = imread_gray (px img x y)) ->
    encode_ai imread_gray edge_norm (Readable img) message threshold
    = Ok out ->
    forall y x,
      dec_map bgr2gray edge_norm out y x
      = enc_map imread_gray edge_norm img y x.
Proof.
  intros imread_gray bgr2gray edge_norm img message threshold out Hgray Henc.
  apply encode_ai_red_lsb_only in Henc. destruct Henc as [touched Hout].
  now apply (maps_agree_when_clearing_is_neutral
               imread_gray bgr2gray edge_norm img out touched).
Qed.

(** The conversions agree on this image although clearing changes every
    pixel: the red value 21 becomes 20, and both sample conversions give
    the gray value 21. *)
Lemma decoder_map_is_encoder_map_when_grays_agree_witness :
  exists out,
    encode_ai luma_floor no_edges (Readable (flat_image 100 1 (21, 21, 21)))
              [104; 105] 0 = Ok out /\
    dec_map luma no_edges out 0%nat 0%nat
    = enc_map luma_floor no_edges (flat_image 100 1 (21, 21, 21)) 0%nat 0%nat.
Proof.
  destruct (encode_ai luma_floor no_edges
              (Readable (flat_image 100 1 (21, 21, 21))) [104; 105] 0)
    as [out | e] eqn:E.
  - exists out. split; [reflexivity |].
    apply (decoder_map_is_encoder_map_when_grays_agree luma_floor luma
             no_edges (flat_image 100 1 (21, 21, 21)) [104; 105] 0 out);
      [| exact E].
    intros x y. reflexivity.
  - vm_compute in E. discriminate E.
Defined.

(** X22.  Under a positive threshold, pairwise distinct candidate scores
    and the agreement of the two grayscale conversions on the input image
    (as in X21), the decoder's candidate sequence for the saved image is
    the sequence [encode_ai] wrote along, and the bits it holds are the
    framed bits, followed by the LSBs of the remaining candidates. *)
Theorem decoder_reads_what_encoder_wrote :
  forall imread_gray bgr2gray edge_norm img message threshold out,
    0 < threshold ->
    (forall x y,
        bgr2gray (clear_red_lsb (px img x y)) = imread_gray (px img x y)) ->
    NoDup (map cand_imp
             (candidates (enc_map imread_gray edge_norm img)
                         (width img) (height img) threshold)) ->
    encode_ai imread_gray edge_norm (Readable img) message threshold
    = Ok out ->
    let cs := pixel_importance_enc (enc_map imread_gray edge_norm img)
                                   img threshold in
    pixel_importance_dec (dec_map bgr2gray edge_norm out) out threshold = cs /\
    exists message_bytes,
      utf8_encode message = Some message_bytes /\
      candidate_bits out
        (pixel_importance_dec (dec_map bgr2gray edge_norm out) out threshold)
      = ai_frame message_bytes
        ++ candidate_bits img (skipn (length (ai_frame message_bytes)) cs).
Proof.
  intros imread_gray bgr2gray edge_norm img message threshold out
         Ht Hgray Hnd Henc cs.
  assert (Hseq : pixel_importance_dec (dec_map bgr2gray edge_norm out) out
                                      threshold = cs).
  { pose proof Henc as Hout. apply encode_ai_red_lsb_only in Hout.
    destruct Hout as [touched Hout].
    pose proof (maps_agree_when_clearing_is_neutral
                  imread_gray bgr2gray edge_norm img out touched
                  Hout Hgray) as Hmap.
    destruct Hout as (Hw & Hh & _).
    unfold pixel_importance_dec. rewrite Hw, Hh.
    rewrite (candidates_ext _ _ _ _ _ Hmap).
    symmetry. apply candidate_orders_agree; [| exact Ht | exact Hnd].
    intros y x. apply enc_map_uint8. }
  split; [exact Hseq |]. rewrite Hseq.
  exact (encode_ai_candidate_bits imread_gray edge_norm img message
           threshold out Henc).
Qed.

Lemma decoder_reads_what_encoder_wrote_witness :
  exists out,
    encode_ai luma_floor ramp_edges
              (Readable (flat_image 64 1 (21, 21, 21))) [] 1
    = Ok out /\
    pixel_importance_dec (dec_map luma ramp_edges out) out 1
    = pixel_importance_enc
        (enc_map luma_floor ramp_edges (flat_image 64 1 (21, 21, 21)))
        (flat_image 64 1 (21, 21, 21)) 1.
Proof.
  destruct (encode_ai luma_floor ramp_edges
              (Readable (flat_image 64 1 (21, 21, 21))) [] 1)
    as [out | e] eqn:E.
  - exists out. split; [reflexivity |].
    apply (decoder_reads_what_encoder_wrote luma_floor luma ramp_edges
             (flat_image 64 1 (21, 21, 21)) [] 1 out).
    + lia.
    + intros x y. reflexivity.
    + assert (Hs : map cand_imp
                     (candidates
                        (enc_map luma_floor ramp_edges
                                 (flat_image 64 1 (21, 21, 21)))
                        (width (flat_image 64 1 (21, 21, 21)))
                        (height (flat_image 64 1 (21, 21, 21))) 1)
                   = map (fun x => Z.of_nat x + 1) (seq 0 64))
        by reflexivity.
      rewrite Hs. apply NoDup_map_NoDup_ForallPairs; [| apply seq_NoDup].
      intros a b _ _ H. lia.
    + exact E.
  - vm_compute in E. discriminate E.
Defined.

(** * What the extraction makes of the encoder's frame *)

Lemma bytes_of_bits_length_upper (bits : list bool) :
  (length bits < 8 * length (bytes_of_bits bits) + 8)%nat.
Proof.
  induction bits as [l Hl | a7 a6 a5 a4 a3 a2 a1 a0 l IH] using list_ind8.
  - rewrite bytes_of_bits_short by exact Hl. simpl. lia.
  - change (bytes_of_bits (a7 :: a6 :: a5 :: a4 :: a3 :: a2 :: a1 :: a0 :: l))
      with (int2 [a7; a6; a5; a4; a3; a2; a1; a0] :: bytes_of_bits l).
    cbn [length]. lia.
Qed.

(** The extraction loop either keeps every bit, or returns the bits in
    front of a run of 64 ones. *)
Lemma scan_ai_cases (bits : list bool) :
  forall binary,
    scan_ai bits binary = binary ++ bits \/
    exists k,
      (k + 64 <= length (binary ++ bits))%nat /\
      firstn 64 (skipn k (binary ++ bits)) = repeat true 64 /\
      scan_ai bits binary = firstn k (binary ++ bits).
Proof.
  induction bits as [| bit bits IH]; intros binary.
  - left. simpl. now rewrite app_nil_r.
  - rewrite scan_ai_cons.
    replace (binary ++ bit :: bits) with ((binary ++ [bit]) ++ bits)
      by now rewrite <- app_assoc.
    destruct (_ && _) eqn:Hstop.
    + right. apply andb_true_iff in Hstop. destruct Hstop as [Hlen Hterm].
      apply Nat.leb_le in Hlen. apply bits_eqb_eq in Hterm.
      exists (length (binary ++ [bit]) - 64)%nat. split; [| split].
      * pose proof (length_app (binary ++ [bit]) bits). lia.
      * rewrite last_n_window by exact Hlen. exact Hterm.
      * unfold drop_last_n. rewrite (firstn_app _ (binary ++ [bit]) bits).
        replace (length (binary ++ [bit]) - 64 - length (binary ++ [bit]))%nat
          with 0%nat by lia.
        rewrite firstn_O. now rewrite app_nil_r.
    + apply IH.
Qed.

(** The bytes packed from what the loop extracts from a frame of
    [encode_ai] are never the bytes that were framed: the frame ends in 63
    ones and a zero, so no run of 64 ones starts within the seven bits
    that follow the payload. *)
Lemma frame_never_yields_payload (message_bytes : list Z) (rest : list bool) :
  Forall is_byte message_bytes ->
  bytes_of_bits (scan_ai (ai_frame message_bytes ++ rest) []) <> message_bytes.
Proof.
  intros Hb Heq. unfold ai_frame in Heq.
  rewrite flat_map_format_08b_bytes in Heq by exact Hb.
  set (payload := flat_map (to_bits 8) message_bytes) in *.
  assert (Hp : length payload = (8 * length message_bytes)%nat)
    by apply flat_map_to_bits8_length.
  set (T := (payload ++ ai_encoder_terminator) ++ rest) in *.
  assert (HT : length T = (length payload + 64 + length rest)%nat).
  { unfold T. rewrite !length_app. reflexivity. }
  pose proof (bytes_of_bits_length (scan_ai T [])) as Hlo.
  pose proof (bytes_of_bits_length_upper (scan_ai T [])) as Hhi.
  rewrite Heq in Hlo, Hhi.
  destruct (scan_ai_cases T []) as [Hall | (k & Hk & Hwin & Hres)];
    cbn [app] in *.
  - rewrite Hall in Hlo, Hhi. lia.
  - rewrite Hres in Hlo, Hhi. rewrite length_firstn in Hlo, Hhi.
    assert (Hj : exists j, (j < 8)%nat /\ k = (length payload + j)%nat).
    { exists (k - length payload)%nat. lia. }
    destruct Hj as (j & Hj & ->).
    unfold T in Hwin. rewrite <- app_assoc in Hwin.
    rewrite skipn_app in Hwin.
    replace (length payload + j - length payload)%nat with j in Hwin by lia.
    rewrite skipn_all2 in Hwin by lia. cbn [app] in Hwin.
    apply (f_equal (fun l => nth (63 - j) l true)) in Hwin.
    rewrite nth_repeat in Hwin.
    do 8 (destruct j as [| j]; [vm_compute in Hwin; discriminate Hwin |]).
    lia.
Qed.

(** X23.  Even where the decoder rebuilds the candidate sequence
    [encode_ai] wrote along, the bytes its extraction loop packs from the
    saved image are not the bytes of the message: the encoder's terminator
    literal is 63 ones and a zero, the loop waits for 64 ones. *)
Theorem extraction_never_returns_payload :
  forall imread_gray edge_norm img message threshold out m message_bytes,
    encode_ai imread_gray edge_norm (Readable img) message threshold
    = Ok out ->
    utf8_encode message = Some message_bytes ->
    pixel_importance_dec m out threshold
    = pixel_importance_enc (enc_map imread_gray edge_norm img) img threshold ->
    bytes_of_bits (ai_bits m out threshold) <> message_bytes.
Proof.
  intros imread_gray edge_norm img message threshold out m bytes
         Henc Hu Hseq.
  destruct (encode_ai_candidate_bits imread_gray edge_norm img message
              threshold out Henc) as (bytes' & Hu' & Hbits).
  rewrite Hu in Hu'. apply Some_inj in Hu'. subst bytes'.
  cbv zeta in Hbits.
  rewrite ai_bits_scan, Hseq, Hbits.
  apply frame_never_yields_payload.
  exact (utf8_encode_bytes message bytes Hu).
Qed.

Lemma extraction_never_returns_payload_witness :
  exists out,
    encode_ai luma no_edges (Readable (flat_image 100 1 (10, 20, 30)))
              [104; 105] 0 = Ok out /\
    bytes_of_bits (ai_bits (dec_map luma no_edges out) out 0) <> [104; 105].
Proof.
  eexists. split; [reflexivity |].
  apply (extraction_never_returns_payload luma no_edges
           (flat_image 100 1 (10, 20, 30)) [104; 105] 0 _
           (dec_map luma no_edges _) [104; 105]).
  - reflexivity.
  - reflexivity.
  - reflexivity.
Defined.
